(** * lintflow: the dispatch engine (package lint) and the Gerrit review
    adapter (package review), embedded shallowly.

    Go values are modelled as follows.
    - [string] and [[]byte] are both sequences of bytes: Stdlib [string].
    - A slice is a [list]; the nil slice and the empty slice are both [[]]
      (the code only ever takes [len] of them or appends to them).
    - A [map[string]T] is a [gmap string T]; a nil map that is only read
      behaves as the empty map.
    - [error] is the text of [err.Error()]; a Go [error] result that may be
      nil is an [option error].
    - A function of package review either returns a value, returns an
      error, or faults at run time (index out of range, failed type
      assertion): [res]. *)

From Stdlib Require Import ZArith Ascii String Permutation.
From stdpp Require Import gmap strings list fin_maps pretty.

Set Warnings "-register-all".
Open Scope string_scope.
Open Scope list_scope.

(** ** Errors and results *)

Definition error := string.

Inductive res (A : Type) : Type :=
| Ok (a : A)
| Err (e : error)
| Fault (why : string).
Arguments Ok {A} a.
Arguments Err {A} e.
Arguments Fault {A} why.

Definition res_bind {A B} (m : res A) (k : A -> res B) : res B :=
  match m with
  | Ok a => k a
  | Err e => Err e
  | Fault why => Fault why
  end.

Module errors.
(** [errors.New(msg)] *)
Definition New (msg : string) : error := msg.
(** [errors.Wrap(err, msg)]: the message is prefixed to the cause. *)
Definition Wrap (e : error) (msg : string) : error := msg +:+ ": " +:+ e.
(** [if err != nil { return ..., errors.Wrap(err, msg) }] *)
Definition wrapped {A} (m : res A) (msg : string) : res A :=
  match m with
  | Ok a => Ok a
  | Err e => Err (Wrap e msg)
  | Fault why => Fault why
  end.
End errors.

#[global] Instance res_ret : MRet res := fun _ a => Ok a.
#[global] Instance res_mbind : MBind res := fun _ _ k m => res_bind m k.

(** ** Package strings, strconv and path/filepath (Unix) *)

Definition slash : ascii := "/"%char.
Definition dot : ascii := "."%char.

Module strings.
(** [strings.HasSuffix(s, suffix)] *)
Definition HasSuffix (s suffix : string) : bool :=
  (String.length suffix <=? String.length s)%nat
  && String.eqb
       (substring (String.length s - String.length suffix)
                  (String.length suffix) s)
       suffix.

(** [strings.TrimSuffix(s, suffix)] *)
Definition TrimSuffix (s suffix : string) : string :=
  if HasSuffix s suffix
  then substring 0 (String.length s - String.length suffix) s
  else s.

(** [strings.Join(elems, sep)] *)
Definition Join (elems : list string) (sep : string) : string :=
  String.concat sep elems.

(** [strings.Split(s, "/")] *)
Fixpoint SplitSlash (s : string) : list string :=
  match s with
  | EmptyString => [EmptyString]
  | String c s' =>
      if Ascii.eqb c slash then EmptyString :: SplitSlash s'
      else match SplitSlash s' with
           | h :: t => String c h :: t
           | [] => [String c EmptyString]
           end
  end.
End strings.

Module strconv.
(** [strconv.Itoa(i)] *)
Definition Itoa (i : Z) : string := pretty i.
End strconv.

Module filepath.
(** [filepath.Ext(path)]: the suffix beginning at the final dot of the
    final element of [path]; empty if there is no dot.  The loop of the
    library walks from the last byte towards the first; [scan] does the
    same over the reversed bytes, with [acc] the bytes already passed. *)
Fixpoint scan (rev_path acc : list ascii) : list ascii :=
  match rev_path with
  | [] => []
  | c :: rest =>
      if Ascii.eqb c slash then []
      else if Ascii.eqb c dot then c :: acc
      else scan rest (c :: acc)
  end.

Definition Ext (path : string) : string :=
  string_of_list_ascii (scan (rev (list_ascii_of_string path)) []).

(** [filepath.Clean(path)], by elements: empty and [.] elements vanish,
    [..] cancels the element before it, [..] at the root vanishes, and
    the empty result is [.]. *)
Fixpoint clean_elems (rooted : bool) (elems out : list string) : list string :=
  match elems with
  | [] => rev out
  | e :: rest =>
      if String.eqb e "" || String.eqb e "." then clean_elems rooted rest out
      else if String.eqb e ".." then
        match out with
        | top :: out' =>
            if String.eqb top ".." then clean_elems rooted rest (e :: out)
            else clean_elems rooted rest out'
        | [] =>
            if rooted then clean_elems rooted rest []
            else clean_elems rooted rest [e]
        end
      else clean_elems rooted rest (e :: out)
  end.

Definition is_rooted (path : string) : bool :=
  match path with
  | String c _ => Ascii.eqb c slash
  | EmptyString => false
  end.

Definition Clean (path : string) : string :=
  let rooted := is_rooted path in
  let out := clean_elems rooted (strings.SplitSlash path) [] in
  if rooted then "/" +:+ strings.Join out "/"
  else match out with
       | [] => "."
       | _ => strings.Join out "/"
       end.

(** [filepath.Join(elem...)]: empty elements are ignored, the result is
    cleaned, and joining nothing gives the empty string. *)
Fixpoint Join (elem : list string) : string :=
  match elem with
  | [] => ""
  | e :: rest =>
      if String.eqb e "" then Join rest
      else Clean (strings.Join elem "/")
  end.

(** The bytes of [path] up to and including its last slash. *)
Fixpoint upto_last_slash (path : string) : string :=
  match path with
  | EmptyString => EmptyString
  | String c rest =>
      let r := upto_last_slash rest in
      if Ascii.eqb c slash then String c r
      else match r with
           | EmptyString => EmptyString
           | _ => String c r
           end
  end.

(** [filepath.Dir(path)] *)
Definition Dir (path : string) : string := Clean (upto_last_slash path).

(** The bytes of [path] after its last slash. *)
Fixpoint after_last_slash (path : string) : string :=
  match path with
  | EmptyString => EmptyString
  | String c rest =>
      if existsb (Ascii.eqb slash) (list_ascii_of_string rest)
      then after_last_slash rest
      else if Ascii.eqb c slash then rest else path
  end.

Fixpoint drop_slashes (rev_path : list ascii) : list ascii :=
  match rev_path with
  | c :: rest => if Ascii.eqb c slash then drop_slashes rest else rev_path
  | [] => []
  end.

(** [filepath.Base(path)] *)
Definition Base (path : string) : string :=
  if String.eqb path "" then "."
  else
    let stripped :=
      string_of_list_ascii
        (rev (drop_slashes (rev (list_ascii_of_string path)))) in
    let last := after_last_slash stripped in
    if String.eqb last "" then "/" else last.
End filepath.

(** ** Package proto and package config *)

Module proto.
(** Modelled from the spec: package proto is not among the sources.
    [Format] is the Finding of the specification: file path, line number
    and message, the fields [File], [Line] and [Details] that [Vote]
    reads. *)
Record Format := {
  File : string;
  Line : Z;
  Details : string;
}.

(** Modelled from the spec: the constants [proto.Base64Content] (the
    reserved suffix that marks staged file content) and
    [proto.Base64Patch] (the reserved name of the staged patch) are not
    among the sources; they are parameters of everything below. *)
Class Names := {
  Base64Content : string;
  Base64Patch : string;
}.
End proto.

Module config.
(** Modelled from the spec: package config is not among the sources.  An
    engine's configuration is its include filter (a list of file
    extensions), its host and its port, as [filter] and [Run] read them. *)
Record Include := { Extension : list string }.
Record Filter := { Include_ : Include }.
Record Lint := {
  Filter_ : Filter;
  Host : string;
  Port : Z;
}.

(** Modelled from the spec: the review system's configuration is its host,
    port and credentials, and the vote: the label, its approval and
    disapproval values and the message, as [Vote] and the URL builders
    read them. *)
Record Vote := {
  Approval : string;
  Disapproval : string;
  Label : string;
  Message : string;
}.
Record Review := {
  RHost : string;
  RPort : Z;
  User : string;
  Pass : string;
  Vote_ : Vote;
}.
End config.

(** ** Package encoding/json and the untyped values it decodes to

    A JSON number decodes to a [float64]; the adapter only converts the
    [_number] fields to [int], so numbers are carried as integers. *)

Inductive value : Type :=
| VNil
| VBool (b : bool)
| VNumber (x : Z)
| VString (s : string)
| VSlice (l : list value)
| VMap (m : gmap string value).

(** The codec itself is the standard library's and is kept abstract; each
    function returns the decoded (or encoded) value together with the
    error of the call.
    - [Marshal_files] is [json.Marshal] of a [map[string]string];
    - [Unmarshal_groups] is [json.Unmarshal] into a
      [map[string][]proto.Format], the groups listed in the order in which
      the [range] loop of [routine] visits them;
    - [Unmarshal_object] and [Unmarshal_objects] are [json.Unmarshal] into
      a [map[string]interface{}] and into a [[]map[string]interface{}];
    - [Marshal_value] is [json.Marshal] of a [map[string]interface{}]. *)
Class Json := {
  Marshal_files : gmap string string -> string * option error;
  Unmarshal_groups : string -> list (string * list proto.Format) * option error;
  Unmarshal_object : string -> gmap string value * option error;
  Unmarshal_objects : string -> list (gmap string value) * option error;
  Marshal_value : gmap string value -> string * option error;
}.

(** *** What [json.Unmarshal] does with a document, by its shape

    [Parse] is the syntax side of the package, kept abstract: the check
    that the bytes are a JSON document and its untyped value (what
    decoding into an [interface{}] gives), or the syntax error.  What
    follows is the typed side, for the two targets the adapter decodes
    into.  A [null] sets a map or a slice to nil and is no error; an
    object is stored into a map; any other value is a type error, which
    is remembered while decoding goes on, and the first one is returned. *)
Class JsonSyntax := { Parse : string -> value + error }.

Module encoding_json.
Definition kind (v : value) : string :=
  match v with
  | VNil => "null"
  | VBool _ => "bool"
  | VNumber _ => "number"
  | VString _ => "string"
  | VSlice _ => "array"
  | VMap _ => "object"
  end.

(** [UnmarshalTypeError]: a value that does not fit the Go type. *)
Definition type_error (v : value) (go_type : string) : error :=
  "json: cannot unmarshal " +:+ kind v +:+ " into Go value of type "
  +:+ go_type.

(** A value stored into a [map[string]interface{}] that holds [start]. *)
Definition into_map (start : gmap string value) (v : value)
  : gmap string value * option error :=
  match v with
  | VNil => (∅, None)
  | VMap m => (m ∪ start, None)
  | _ => (start, Some (type_error v "map[string]interface {}"))
  end.

(** The elements of an array stored into a [[]map[string]interface{}]. *)
Fixpoint into_maps (l : list value)
  : list (gmap string value) * option error :=
  match l with
  | [] => ([], None)
  | v :: rest =>
      let '(m, e) := into_map ∅ v in
      let '(ms, e') := into_maps rest in
      (m :: ms, match e with
                | Some _ => e
                | None => e'
                end)
  end.

(** A value stored into a nil [[]map[string]interface{}]. *)
Definition into_slice (v : value)
  : list (gmap string value) * option error :=
  match v with
  | VNil => ([], None)
  | VSlice l => into_maps l
  | _ => ([], Some (type_error v "[]map[string]interface {}"))
  end.

(** The values a map element accepts, the first element of an array that
    is none of them, and the map an accepted value becomes. *)
Definition object_or_null (v : value) : bool :=
  match v with
  | VNil | VMap _ => true
  | _ => false
  end.

Definition offender (l : list value) : option value :=
  List.find (fun v => negb (object_or_null v)) l.

Definition as_map (v : value) : gmap string value :=
  match v with
  | VMap m => m
  | _ => ∅
  end.
End encoding_json.

(** The two decoding functions of [Json] are [json.Unmarshal]: the syntax
    side followed by the typed side.  A syntax error leaves the target as
    it was. *)
Class JsonDecoding `{Json} `{JsonSyntax} : Prop := {
  Unmarshal_objects_is_typed body :
    Unmarshal_objects body
    = match Parse body with
      | inl v => encoding_json.into_slice v
      | inr e => ([], Some e)
      end;
  Unmarshal_object_is_typed body :
    Unmarshal_object body
    = match Parse body with
      | inl v => encoding_json.into_map ∅ v
      | inr e => (∅, Some e)
      end;
}.

(** ** Package os: the staging area on local storage

    A file system maps the path strings that the program hands to the
    operating system (all of them results of [filepath.Join], hence
    cleaned) to a regular file with its content or to a directory.
    Permissions, quotas and device errors are not modelled. *)

Module os.
Inductive node :=
| File (content : string)
| Directory.

Abbreviation FS := (gmap string node).

(** The chain of parent directories of [path], nearest first. *)
Fixpoint parents_upto (fuel : nat) (path : string) : list string :=
  match fuel with
  | O => []
  | S fuel' =>
      let d := filepath.Dir path in
      if String.eqb d path then [] else d :: parents_upto fuel' d
  end.
Definition parents (path : string) : list string :=
  parents_upto (String.length path) path.

Definition is_file (fs : FS) (path : string) : bool :=
  match fs !! path with
  | Some (File _) => true
  | _ => false
  end.

Definition is_dir (fs : FS) (path : string) : bool :=
  match fs !! path with
  | Some Directory => true
  | _ => false
  end.

(** [os.MkdirAll(path, os.ModePerm)]: fails when [path] or one of its
    parents is a regular file; otherwise all of them are directories
    afterwards. *)
Definition MkdirAll (fs : FS) (path : string) : FS * option error :=
  match List.find (is_file fs) (path :: parents path) with
  | Some p => (fs, Some ("mkdir " +:+ p +:+ ": not a directory"))
  | None =>
      (foldr (fun p acc => <[p := Directory]> acc) fs (path :: parents path),
       None)
  end.

(** [os.Create(name)], then [WriteString(data)] through a [bufio.Writer]
    that is flushed and closed by the deferred calls: the file is
    truncated and holds [data]. *)
Definition Create_WriteString (fs : FS) (name data : string)
  : FS * option error :=
  if is_dir fs name then
    (fs, Some ("open " +:+ name +:+ ": is a directory"))
  else if negb (is_dir fs (filepath.Dir name)) then
    (fs, Some ("open " +:+ name +:+ ": no such file or directory"))
  else (<[name := File data]> fs, None).

(** [os.Open(name)] *)
Definition Open (fs : FS) (name : string) : option node * option error :=
  match fs !! name with
  | Some n => (Some n, None)
  | None => (None, Some ("open " +:+ name +:+ ": no such file or directory"))
  end.

(** [ioutil.ReadAll(fi)] *)
Definition ReadAll (name : string) (fi : option node) : string * option error :=
  match fi with
  | Some (File content) => (content, None)
  | _ => ("", Some ("read " +:+ name +:+ ": is a directory"))
  end.
End os.

(** ** Package lint: the dispatch engine *)

Module lint.
Import proto.

Record Config := { Lints : list config.Lint }.
Record lint := { cfg : Config }.

(** [type result struct { data []proto.Format; err error }] *)
Record result := {
  data : list Format;
  err : option error;
}.

(** What a per-engine goroutine does that is visible outside it: it opens
    a staged file, dials an engine, issues the RPC call, or sends a
    [result] on the channel of [Run]. *)
Inductive event :=
| EvOpen (name : string)
| EvDial (target : string)
| EvSendLint (target message : string)
| EvResult (r : result).

(** The lint engines behind the RPC boundary: [grpc.Dial] to a target
    fails or connects, and [SendLint] to a connected target with a
    request message returns the reply message and the error of the call. *)
Record Engines := {
  Dial : string -> option error;
  SendLint : string -> string -> string * option error;
}.

Section WithLibraries.
Context `{!Names} `{!Json}.

(** The closure [helper] of [filter]. *)
Fixpoint filter_helper_range (f_Include_Extension : list string)
         (data : string) (match_ : bool) : bool :=
  match f_Include_Extension with
  | [] => match_
  | val :: rest =>
      if String.eqb val
           (filepath.Ext (strings.TrimSuffix data Base64Content))
      then true
      else filter_helper_range rest data match_
  end.

Definition filter_helper (f : config.Filter) (data : string) : bool :=
  filter_helper_range (config.Extension (config.Include_ f)) data false.

Definition filter (l : lint) (f : config.Filter) (data : list string)
  : list string :=
  fold_left
    (fun buf val => if filter_helper f val then buf ++ [val] else buf)
    data [].

(** The closure [helper] of [marshal]. *)
Definition marshal_helper (fs : os.FS) (name : string)
  : string * option error :=
  let '(fi, err) := os.Open fs name in
  match err with
  | Some e => ("", Some (errors.Wrap e "failed to open"))
  | None =>
      let '(buf, err) := os.ReadAll name fi in
      match err with
      | Some e => ("", Some (errors.Wrap e "failed to readall"))
      | None => (buf, None)
      end
  end.

(** The loop of [marshal]: the map built so far, the value of [err]
    when the loop is left, and the files opened on the way. *)
Fixpoint marshal_range (fs : os.FS) (root : string) (data : list string)
         (buf : gmap string string)
  : gmap string string * option error * list event :=
  match data with
  | [] => (buf, None, [])
  | val :: rest =>
      if String.eqb val "" then (buf, Some (errors.New "invalid data"), [])
      else
        let name := filepath.Join [root; val] in
        let '(content, err) := marshal_helper fs name in
        let buf := <[val := content]> buf in
        match err with
        | Some e => (buf, Some e, [EvOpen name])
        | None =>
            let '(buf, err, evs) := marshal_range fs root rest buf in
            (buf, err, EvOpen name :: evs)
        end
  end.

Definition marshal (l : lint) (fs : os.FS) (root : string)
           (data : list string) : list event * (string * option error) :=
  let '(buf, err, evs) := marshal_range fs root data ∅ in
  if Nat.eqb (size buf) 0 then (evs, ("", Some (errors.New "invalid data")))
  else
    match err with
    | Some e => (evs, ("", Some (errors.Wrap e "failed to read")))
    | None =>
        let '(ret, err) := Marshal_files buf in
        match err with
        | Some e => (evs, ("", Some (errors.Wrap e "failed to marshal")))
        | None => (evs, (ret, None))
        end
    end.

(** The closure [helper] of [routine]. *)
Definition routine_helper (data : string) : list Format * option error :=
  let '(buf, err) := Unmarshal_groups data in
  match err with
  | Some e => ([], Some (errors.Wrap e "failed to unmarshal"))
  | None => (fold_left (fun ret kv => ret ++ snd kv) buf [], None)
  end.

Definition routine (l : lint) (w : Engines) (host : string) (port : Z)
           (data : string) : list event * (list Format * option error) :=
  let target := host +:+ ":" +:+ strconv.Itoa port in
  match Dial w target with
  | Some e => ([EvDial target], ([], Some (errors.Wrap e "failed to dial")))
  | None =>
      let '(reply, err) := SendLint w target data in
      let evs := [EvDial target; EvSendLint target data] in
      match err with
      | Some e => (evs, ([], Some (errors.Wrap e "failed to send")))
      | None =>
          let '(buf, err) := routine_helper reply in
          match err with
          | Some e => (evs, ([], Some (errors.Wrap e "failed to get")))
          | None => (evs, (buf, None))
          end
      end
  end.

(** The body of the goroutine that [Run] starts for the engine [val],
    as the sequence of its events.  There is no [return] after either
    of the two error sends, so control falls through to the next
    statement with the zero value of the failed call. *)
Definition task (l : lint) (w : Engines) (fs : os.FS) (root : string)
           (files : list string) (val : config.Lint) : list event :=
  let f := filter l (config.Filter_ val) files in
  if negb (Nat.eqb (length f) 0) then
    let '(ev_m, (m, e)) := marshal l fs root f in
    let send_m :=
      match e with
      | Some e =>
          [EvResult {| data := []; err := Some (errors.Wrap e "failed to marshal") |}]
      | None => []
      end in
    let '(ev_r, (r, e)) := routine l w (config.Host val) (config.Port val) m in
    let send_r :=
      match e with
      | Some e =>
          [EvResult {| data := []; err := Some (errors.Wrap e "failed to routine") |}]
      | None => []
      end in
    ev_m ++ send_m ++ ev_r ++ send_r ++ [EvResult {| data := r; err := None |}]
  else [EvResult {| data := []; err := None |}].

(** *** The run: goroutines, the buffered channel and the drain loop

    [chan] is the buffer of [ch], oldest first, and [capacity] its
    size; [goroutines] holds what is left of each task; [ranging] is
    the number of iterations the drain loop still has to make; [ret]
    is the slice being built; [returned] is the pair [Run] has
    returned, once it has.  [received] and [effects] are logs: the
    results drained so far and the file and RPC events so far. *)
Record state := {
  chan : list result;
  capacity : nat;
  goroutines : list (list event);
  ranging : nat;
  ret : list Format;
  returned : option (list Format * option error);
  received : list result;
  effects : list event;
}.

(** Who moves next: goroutine [i], or the function [Run] itself. *)
Inductive turn :=
| Goroutine (i : nat)
| Main.

Definition spawn (l : lint) (w : Engines) (fs : os.FS) (root : string)
           (files : list string) : state :=
  {| chan := [];
     capacity := length (Lints (cfg l));
     goroutines := map (task l w fs root files) (Lints (cfg l));
     ranging := length (Lints (cfg l));
     ret := [];
     returned := None;
     received := [];
     effects := [] |}.

(** One move.  A send [ch <- r] is enabled while the buffer has room;
    a receive [<-ch] while the buffer is not empty. *)
Definition step (t : turn) (s : state) : option state :=
  match t with
  | Goroutine i =>
      match goroutines s !! i with
      | Some (EvResult r :: rest) =>
          if (length (chan s) <? capacity s)%nat then
            Some {| chan := chan s ++ [r];
                    capacity := capacity s;
                    goroutines := <[i := rest]> (goroutines s);
                    ranging := ranging s;
                    ret := ret s;
                    returned := returned s;
                    received := received s;
                    effects := effects s |}
          else None
      | Some (ev :: rest) =>
          Some {| chan := chan s;
                  capacity := capacity s;
                  goroutines := <[i := rest]> (goroutines s);
                  ranging := ranging s;
                  ret := ret s;
                  returned := returned s;
                  received := received s;
                  effects := effects s ++ [ev] |}
      | _ => None
      end
  | Main =>
      match returned s with
      | Some _ => None
      | None =>
          match ranging s with
          | O =>
              Some {| chan := chan s;
                      capacity := capacity s;
                      goroutines := goroutines s;
                      ranging := O;
                      ret := ret s;
                      returned := Some (ret s, None);
                      received := received s;
                      effects := effects s |}
          | S n =>
              match chan s with
              | [] => None
              | r :: rest =>
                  match err r with
                  | Some e =>
                      Some {| chan := rest;
                              capacity := capacity s;
                              goroutines := goroutines s;
                              ranging := ranging s;
                              ret := ret s;
                              returned := Some ([], Some e);
                              received := received s ++ [r];
                              effects := effects s |}
                  | None =>
                      Some {| chan := rest;
                              capacity := capacity s;
                              goroutines := goroutines s;
                              ranging := n;
                              ret := if negb (Nat.eqb (length (data r)) 0)
                                     then ret s ++ data r else ret s;
                              returned := None;
                              received := received s ++ [r];
                              effects := effects s |}
                  end
              end
          end
      end
  end.

(** A schedule is the sequence of moves the scheduler picks. *)
Fixpoint exec (sched : list turn) (s : state) : option state :=
  match sched with
  | [] => Some s
  | t :: rest =>
      match step t s with
      | Some s' => exec rest s'
      | None => None
      end
  end.

(** [Run(root, files)] under the schedule [sched]: what it has returned
    when the schedule is over, if it has. *)
Definition Run (l : lint) (w : Engines) (fs : os.FS) (root : string)
           (files : list string) (sched : list turn)
  : option (list Format * option error) :=
  match exec sched (spawn l w fs root files) with
  | Some s => returned s
  | None => None
  end.

(** *** Notions used to state the properties of [Run] *)

(** The extension on which an engine selects a staged name. *)
Definition selecting_extension (name : string) : string :=
  filepath.Ext (strings.TrimSuffix name Base64Content).

(** The results a task sends, in order. *)
Fixpoint sends (p : list event) : list result :=
  match p with
  | [] => []
  | EvResult r :: rest => r :: sends rest
  | _ :: rest => sends rest
  end.

(** The outcome of the engine [val] in the sense of the design: the
    findings of its reply, or the error of the first step that failed
    (section 4.2 of the specification, steps 1 to 4). *)
Definition outcome (l : lint) (w : Engines) (fs : os.FS) (root : string)
           (files : list string) (val : config.Lint) : result :=
  let f := filter l (config.Filter_ val) files in
  if negb (Nat.eqb (length f) 0) then
    match snd (snd (marshal l fs root f)) with
    | Some e =>
        {| data := []; err := Some (errors.Wrap e "failed to marshal") |}
    | None =>
        let m := fst (snd (marshal l fs root f)) in
        let x := snd (routine l w (config.Host val) (config.Port val) m) in
        match snd x with
        | Some e =>
            {| data := []; err := Some (errors.Wrap e "failed to routine") |}
        | None => {| data := fst x; err := None |}
        end
    end
  else {| data := []; err := None |}.

(** Every result sent so far, in the order of the sends. *)
Definition history (s : state) : list result := received s ++ chan s.

(** The goroutines that have nothing left to send. *)
Definition finished (gs : list (list event)) : nat :=
  length (List.filter (fun p => Nat.eqb (length (sends p)) 0) gs).

(** An upper bound on the number of moves that are left. *)
Definition budget (s : state) : nat :=
  2 * length (concat (goroutines s)) + length (chan s)
  + match returned s with
    | None => 1
    | Some _ => 0
    end.

(** Everything the goroutines have still to send. *)
Definition pending (gs : list (list event)) : list result :=
  concat (map sends gs).

(** A result without error is the last thing a goroutine sends. *)
Fixpoint ok_last (rs : list result) : Prop :=
  match rs with
  | [] => True
  | r :: more => (err r = None -> more = []) /\ ok_last more
  end.

Definition succeeded (r : result) : Prop := err r = None.

(** What holds of every state of a run of [n] goroutines that send the
    results [all] between them. *)
Record invariant (n : nat) (all : list result) (s : state) : Prop := {
  inv_capacity : capacity s = n;
  inv_goroutines : length (goroutines s) = n;
  inv_ok_last : Forall (fun p => ok_last (sends p)) (goroutines s);
  inv_all : Permutation (history s ++ pending (goroutines s)) all;
  inv_order :
    (Forall succeeded (history s)
     /\ length (history s) = finished (goroutines s))
    \/ (exists pre bad post,
           history s = pre ++ bad :: post
           /\ Forall succeeded pre /\ err bad <> None
           /\ (length pre < n)%nat);
  inv_draining :
    returned s = None ->
    length (received s) + ranging s = n
    /\ Forall succeeded (received s)
    /\ ret s = concat (map data (received s));
  inv_returned :
    forall out, returned s = Some out ->
      (exists oks bad e,
          received s = oks ++ [bad]
          /\ Forall succeeded oks /\ err bad = Some e
          /\ out = ([], Some e))
      \/ (Forall succeeded (received s)
          /\ length (received s) = n
          /\ out = (concat (map data (received s)), None));
}.

(** *** Constructors, and notions used for further properties *)

(** [DefaultConfig()] and [New(cfg)]. *)
Definition DefaultConfig : Config := {| Lints := [] |}.
Definition New (cfg : Config) : lint := {| cfg := cfg |}.

(** What a goroutine does other than sending results, in order. *)
Fixpoint silent (p : list event) : list event :=
  match p with
  | [] => []
  | EvResult _ :: rest => silent rest
  | ev :: rest => ev :: silent rest
  end.

(** The RPC calls among some events: target and request message. *)
Fixpoint rpc_calls (p : list event) : list (string * string) :=
  match p with
  | [] => []
  | EvSendLint target message :: rest => (target, message) :: rpc_calls rest
  | _ :: rest => rpc_calls rest
  end.

(** The content of the regular file staged for [name] under [root]. *)
Definition read_staged (fs : os.FS) (root name : string) : string :=
  match fs !! filepath.Join [root; name] with
  | Some (os.File content) => content
  | _ => ""
  end.

(** The address that [routine] dials for the engine [val]. *)
Definition target_of (val : config.Lint) : string :=
  config.Host val +:+ ":" +:+ strconv.Itoa (config.Port val).

(** How the goroutines of a state relate to the tasks [gs0] they were
    started with, as long as no error has been sent: each one has sent
    nothing yet or has nothing left to send; and once an error has been
    sent, the first error of the history is the first result of a task. *)
Definition first_error_is_first_send (gs0 : list (list event)) (s : state)
  : Prop :=
  (Forall succeeded (history s)
   /\ Forall2 (fun p0 p => sends p = sends p0 \/ sends p = [])
              gs0 (goroutines s))
  \/ (exists pre bad post p0,
         history s = pre ++ bad :: post
         /\ Forall succeeded pre /\ err bad <> None
         /\ p0 ∈ gs0 /\ head (sends p0) = Some bad).

(** The file and RPC events of a state, done and still to do, are those
    of the tasks [gs0] it was started with. *)
Definition effects_accounted (gs0 : list (list event)) (s : state) : Prop :=
  Permutation (effects s ++ concat (map silent (goroutines s)))
              (concat (map silent gs0)).
End WithLibraries.
End lint.

(** ** Package review: the Gerrit adapter *)

(** [url.PathEscape] is the standard library's and is kept abstract. *)
Class Url := { PathEscape : string -> string }.

Module review.
Import proto.

Record gerrit := { r : config.Review }.

(** An HTTP request as the adapter builds it, and the reply of the
    review system to it: the error of [http.DefaultClient.Do], and
    otherwise the status code, the body and the error of reading it. *)
Record request := {
  Method : string;
  URL : string;
  BasicAuth : option (string * string);
  ContentType : option string;
  Payload : string;
}.
Record response := {
  StatusCode : Z;
  Body : string * option error;
}.

(** What lies outside the process: the working directory, the date, the
    review system, and the order in which the [n]-th [range] statement
    of [Fetch] visits the keys of a map (Go leaves it unspecified). *)
Record World := {
  Getwd : string * option error;
  Today : string;
  NewRequest : string -> string -> option error;
  Do : request -> response * option error;
  RangeOrder : nat -> gmap string value -> list string;
}.

(** Computations that write to the staging area. *)
Definition io (A : Type) : Type := os.FS -> os.FS * res A.
#[global] Instance io_ret : MRet io := fun _ a fs => (fs, Ok a).
#[global] Instance io_mbind : MBind io := fun _ _ k m fs =>
  match m fs with
  | (fs', Ok a) => k a fs'
  | (fs', Err e) => (fs', Err e)
  | (fs', Fault why) => (fs', Fault why)
  end.
Definition pure {A} (m : res A) : io A := fun fs => (fs, m).

(** Type assertions [x.(T)] on a value read from a map: they fault when
    the key is absent (a nil interface) or holds another type. *)
Definition assert_map (x : option value) : res (gmap string value) :=
  match x with
  | Some (VMap m) => Ok m
  | _ => Fault "interface conversion: not map[string]interface {}"
  end.
Definition assert_string (x : option value) : res string :=
  match x with
  | Some (VString s) => Ok s
  | _ => Fault "interface conversion: not string"
  end.
Definition assert_float64 (x : option value) : res Z :=
  match x with
  | Some (VNumber n) => Ok n
  | _ => Fault "interface conversion: not float64"
  end.
Definition assert_slice (x : option value) : res (list value) :=
  match x with
  | Some (VSlice l) => Ok l
  | _ => Fault "interface conversion: not []map[string]interface {}"
  end.

(** The slice expression [data[n:]]. *)
Definition slice_from (data : string) (n : nat) : res string :=
  if (String.length data <? n)%nat
  then Fault "slice bounds out of range"
  else Ok (substring n (String.length data - n) data).

Section WithLibraries.
Context `{!Names} `{!Json} `{!Url}.

Definition authenticated (g : gerrit) : bool :=
  negb (String.eqb (config.User (r g)) "")
  && negb (String.eqb (config.Pass (r g)) "").

Definition base (g : gerrit) : string :=
  config.RHost (r g) +:+ ":" +:+ strconv.Itoa (config.RPort (r g)).

Definition urlContent (g : gerrit) (change revision : Z) (name : string)
  : string :=
  let buf := base g +:+ "/changes/" +:+ strconv.Itoa change
             +:+ "/revisions/" +:+ strconv.Itoa revision
             +:+ "/files/" +:+ PathEscape name +:+ "/content" in
  if authenticated g then
    base g +:+ "/a/changes/" +:+ strconv.Itoa change
    +:+ "/revisions/" +:+ strconv.Itoa revision
    +:+ "/files/" +:+ PathEscape name +:+ "/content"
  else buf.

Definition urlPatch (g : gerrit) (change revision : Z) : string :=
  let buf := base g +:+ "/changes/" +:+ strconv.Itoa change
             +:+ "/revisions/" +:+ strconv.Itoa revision +:+ "/patch" in
  if authenticated g then
    base g +:+ "/a/changes/" +:+ strconv.Itoa change
    +:+ "/revisions/" +:+ strconv.Itoa revision +:+ "/patch"
  else buf.

Definition urlQuery (g : gerrit) (search : string) (option_ : list string)
           (start : Z) : string :=
  let query := "?q=" +:+ search +:+ "&o=" +:+ strings.Join option_ "&o="
               +:+ "&n=" +:+ strconv.Itoa start in
  let buf := base g +:+ "/changes/" +:+ query in
  if authenticated g then base g +:+ "/a/changes/" +:+ query else buf.

Definition urlReview (g : gerrit) (change revision : Z) : string :=
  let buf := base g +:+ "/changes/" +:+ strconv.Itoa change
             +:+ "/revisions/" +:+ strconv.Itoa revision +:+ "/review" in
  if authenticated g then
    base g +:+ "/a/changes/" +:+ strconv.Itoa change
    +:+ "/revisions/" +:+ strconv.Itoa revision +:+ "/review"
  else buf.

Definition credentials (g : gerrit) : option (string * string) :=
  if authenticated g
  then Some (config.User (r g), config.Pass (r g))
  else None.

Definition get (g : gerrit) (w : World) (_url : string) : res string :=
  match NewRequest w "GET" _url with
  | Some e => Err (errors.Wrap e "failed to request")
  | None =>
      let req := {| Method := "GET"; URL := _url;
                    BasicAuth := credentials g;
                    ContentType := None; Payload := "" |} in
      let '(rsp, err) := Do w req in
      match err with
      | Some e => Err (errors.Wrap e "failed to do")
      | None =>
          if negb (Z.eqb (StatusCode rsp) 200)
          then Err (errors.New "invalid status")
          else
            let '(data, err) := Body rsp in
            match err with
            | Some e => Err (errors.Wrap e "failed to read")
            | None => Ok data
            end
      end
  end.

(** [post] also reports the request it has handed to the HTTP client,
    if it got that far. *)
Definition post (g : gerrit) (w : World) (_url : string)
           (data : gmap string value) : list request * res unit :=
  let '(buf, err) := Marshal_value data in
  match err with
  | Some e => ([], Err (errors.Wrap e "failed to marshal"))
  | None =>
      match NewRequest w "POST" _url with
      | Some e => ([], Err (errors.Wrap e "failed to request"))
      | None =>
          let req := {| Method := "POST"; URL := _url;
                        BasicAuth := credentials g;
                        ContentType := Some "application/json;charset=utf-8";
                        Payload := buf |} in
          let '(rsp, err) := Do w req in
          match err with
          | Some e => ([req], Err (errors.Wrap e "failed to do"))
          | None =>
              if negb (Z.eqb (StatusCode rsp) 200)
              then ([req], Err (errors.New "invalid status"))
              else
                match snd (Body rsp) with
                | Some e => ([req], Err (errors.Wrap e "failed to read"))
                | None => ([req], Ok tt)
                end
          end
      end
  end.

Definition unmarshal (g : gerrit) (data : string)
  : res (gmap string value) :=
  body ← slice_from data 4;
  let '(buf, err) := Unmarshal_object body in
  match err with
  | Some e => Err (errors.Wrap e "failed to unmarshal")
  | None => Ok buf
  end.

Definition unmarshalList (g : gerrit) (data : string)
  : res (gmap string value) :=
  body ← slice_from data 4;
  let '(buf, err) := Unmarshal_objects body in
  match err with
  | Some e => Err (errors.Wrap e "failed to unmarshal")
  | None =>
      if Nat.eqb (length buf) 0 then Err (errors.New "failed to match")
      else match buf !! 0%nat with
           | Some first => Ok first
           | None => Fault "index out of range"
           end
  end.

Definition io_wrapped {A} (m : io A) (msg : string) : io A :=
  fun fs => let '(fs', x) := m fs in (fs', errors.wrapped x msg).

(** The closure [helper] of [Fetch]: [dir] is created with its parents
    and [data] is written to [file] inside it.  Writes to a regular
    file do not fail in this model of the store. *)
Definition Fetch_helper (dir file data : string) : io unit :=
  fun fs =>
    let '(fs, err) := os.MkdirAll fs dir in
    match err with
    | Some e => (fs, Err (errors.Wrap e "failed to mkdir"))
    | None =>
        let '(fs, err) :=
          os.Create_WriteString fs (filepath.Join [dir; file]) data in
        match err with
        | Some e => (fs, Err (errors.Wrap e "failed to create"))
        | None => (fs, Ok tt)
        end
    end.

(** The loop [for key := range fs] that downloads and stages the
    content of every changed file. *)
Fixpoint Fetch_content (g : gerrit) (w : World) (path : string)
         (changeNum revisionNum : Z) (keys : list string) : io unit :=
  match keys with
  | [] => mret tt
  | key :: rest =>
      buf ← pure (errors.wrapped
                    (get g w (urlContent g changeNum revisionNum key))
                    "failed to content");
      _ ← io_wrapped
            (Fetch_helper (filepath.Join [path; filepath.Dir key])
                          (filepath.Base key +:+ Base64Content) buf)
            "failed to fetch";
      Fetch_content g w path changeNum revisionNum rest
  end.

Definition Fetch (g : gerrit) (w : World) (commit : string)
  : io (string * list string) :=
  d ← pure (match Getwd w with
            | (_, Some e) => Err (errors.Wrap e "failed to getwd")
            | (d, None) => Ok d
            end);
  let root := filepath.Join [d; "gerrit-" +:+ Today w] in
  r ← pure (errors.wrapped
              (get g w (urlQuery g ("commit:" +:+ commit)
                                 ["CURRENT_FILES"; "CURRENT_REVISION"] 0))
              "failed to query");
  ret ← pure (errors.wrapped (unmarshalList g r) "failed to unmarshal");
  revisions ← pure (assert_map (ret !! "revisions"));
  current_revision ← pure (assert_string (ret !! "current_revision"));
  current ← pure (assert_map (revisions !! current_revision));
  changeNum ← pure (assert_float64 (ret !! "_number"));
  revisionNum ← pure (assert_float64 (current !! "_number"));
  let path :=
    filepath.Join [root; strconv.Itoa changeNum; current_revision] in
  buf ← pure (errors.wrapped (get g w (urlPatch g changeNum revisionNum))
                             "failed to patch");
  _ ← io_wrapped (Fetch_helper path Base64Patch buf) "failed to fetch";
  fs ← pure (assert_map (current !! "files"));
  _ ← Fetch_content g w path changeNum revisionNum (RangeOrder w 0 fs);
  let files :=
    fold_left (fun files key => files ++ [key]) (RangeOrder w 1 fs)
              [Base64Patch] in
  mret (root, files).

(** The loop of the closure [helper] of [Vote]. *)
Fixpoint Vote_helper_range (data : list Format) (c : gmap string value)
  : res (gmap string value) :=
  match data with
  | [] => Ok c
  | item :: rest =>
      let b := VMap {[ "line" := VNumber (Line item);
                       "message" := VString (Details item) ]} in
      match c !! File item with
      | None => Vote_helper_range rest (<[File item := VSlice [b]]> c)
      | Some v =>
          l ← assert_slice (Some v);
          Vote_helper_range rest (<[File item := VSlice (l ++ [b])]> c)
      end
  end.

(** The closure [helper] of [Vote]: comments, labels and message. *)
Definition Vote_helper (g : gerrit) (data : list Format)
  : res (value * gmap string value * string) :=
  let vote := config.Vote_ (r g) in
  if Nat.eqb (length data) 0 then
    Ok (VNil,
        {[ config.Label vote := VString (config.Approval vote) ]},
        config.Message vote)
  else
    c ← Vote_helper_range data ∅;
    Ok (VMap c,
        {[ config.Label vote := VString (config.Disapproval vote) ]},
        config.Message vote).

(** [Vote] up to the call of [post]: the URL and the body [buf]. *)
Definition Vote_review (g : gerrit) (w : World) (commit : string)
           (data : list Format) : res (string * gmap string value) :=
  r ← errors.wrapped
        (get g w (urlQuery g ("commit:" +:+ commit) ["CURRENT_REVISION"] 0))
        "failed to query";
  ret ← errors.wrapped (unmarshalList g r) "failed to unmarshal";
  revisions ← assert_map (ret !! "revisions");
  current_revision ← assert_string (ret !! "current_revision");
  current ← assert_map (revisions !! current_revision);
  h ← Vote_helper g data;
  let '(comments, labels, message) := h in
  let buf : gmap string value :=
    {[ "comments" := comments;
       "labels" := VMap labels;
       "message" := VString message ]} in
  change ← assert_float64 (ret !! "_number");
  revision ← assert_float64 (current !! "_number");
  Ok (urlReview g change revision, buf).

(** [Vote], with the requests it has posted. *)
Definition Vote (g : gerrit) (w : World) (commit : string)
           (data : list Format) : list request * res unit :=
  match Vote_review g w commit data with
  | Ok (_url, buf) =>
      let '(posted, x) := post g w _url buf in
      (posted, errors.wrapped x "failed to review")
  | Err e => ([], Err e)
  | Fault why => ([], Fault why)
  end.

(** *** Notions used to state the properties of [Vote] *)

(** One inline comment, and the comments of one file: the findings on
    that file in the order of the input, if there is any. *)
Definition comment (item : Format) : value :=
  VMap {[ "line" := VNumber (Line item);
          "message" := VString (Details item) ]}.

Definition comments_on (data : list Format) (file : string)
  : option value :=
  match List.filter (fun item => String.eqb (File item) file) data with
  | [] => None
  | items => Some (VSlice (map comment items))
  end.

(** *** Further functions, and notions used for further properties *)

Definition urlDetail (g : gerrit) (change : Z) : string :=
  let buf := base g +:+ "/changes/" +:+ strconv.Itoa change +:+ "/detail" in
  if authenticated g then
    base g +:+ "/a/changes/" +:+ strconv.Itoa change +:+ "/detail"
  else buf.

(** The path prefix that the URL builders share. *)
Definition changes_prefix (g : gerrit) : string :=
  base g +:+ (if authenticated g then "/a/changes/" else "/changes/").

(** The request that [get] builds for [_url], the request that [post]
    builds for [_url] and an encoded body, and what [get] makes of the
    client's answer. *)
Definition request_of_get (g : gerrit) (_url : string) : request :=
  {| Method := "GET"; URL := _url; BasicAuth := credentials g;
     ContentType := None; Payload := "" |}.

Definition request_of_post (g : gerrit) (_url payload : string) : request :=
  {| Method := "POST"; URL := _url; BasicAuth := credentials g;
     ContentType := Some "application/json;charset=utf-8";
     Payload := payload |}.

Definition body_of (answer : response * option error) : res string :=
  match answer.2 with
  | Some e => Err (errors.Wrap e "failed to do")
  | None =>
      if negb (Z.eqb (StatusCode answer.1) 200)
      then Err (errors.New "invalid status")
      else match Body answer.1 with
           | (_, Some e) => Err (errors.Wrap e "failed to read")
           | (data, None) => Ok data
           end
  end.

(** What [post], and [Vote] after it, make of the client's answer. *)
Definition posted_of (answer : response * option error) : res unit :=
  match answer.2 with
  | Some e => Err (errors.Wrap e "failed to do")
  | None =>
      if negb (Z.eqb (StatusCode answer.1) 200)
      then Err (errors.New "invalid status")
      else match (Body answer.1).2 with
           | Some e => Err (errors.Wrap e "failed to read")
           | None => Ok tt
           end
  end.



(** Nothing that exists in [fs] is gone or has changed its kind in
    [fs']. *)
Definition kept (fs fs' : os.FS) : Prop :=
  forall path,
    (os.is_dir fs path = true -> os.is_dir fs' path = true)
    /\ (os.is_file fs path = true -> os.is_file fs' path = true).

(** A computation on the store that only adds to it. *)
Definition keeps {A} (m : io A) : Prop :=
  forall fs fs' x, m fs = (fs', x) -> kept fs fs'.
End WithLibraries.
End review.

(** ** A concrete setting for the examples

    Stand-ins for what is abstract above: the two reserved names, a codec
    that knows a handful of documents, two lint engines and one that is
    down, and a review system with one change. *)

Module scenario.
Import proto.

(** Modelled from the spec: values for the two reserved names of package
    proto, a suffix and a file name, used in the examples only. *)
Definition names : Names :=
  {| Base64Content := ".base64"; Base64Patch := "patch.base64" |}.

Definition golint : Format :=
  {| File := "a.go"; Line := 3; Details := "exported func lacks comment" |}.
Definition spell : Format :=
  {| File := "b.txt"; Line := 7; Details := "misspelled word" |}.

(** The change that the review system knows: number 1, current revision
    [abc] with number 2, one changed file [a.go]. *)
Definition current : gmap string value :=
  {[ "_number" := VNumber 2;
     "files" := VMap {[ "a.go" := VMap ∅ ]} ]}.
Definition revisions : gmap string value := {[ "abc" := VMap current ]}.
Definition change : gmap string value :=
  {[ "_number" := VNumber 1;
     "current_revision" := VString "abc";
     "revisions" := VMap revisions ]}.

Definition json : Json :=
  {| Marshal_files buf :=
       (String.concat ";"
          (map (fun kv => fst kv +:+ "=" +:+ snd kv) (map_to_list buf)),
        None);
     Unmarshal_groups data :=
       if String.eqb data "reply-go" then ([("golint", [golint])], None)
       else if String.eqb data "reply-txt" then ([("spell", [spell])], None)
       else ([], Some "unexpected end of JSON input");
     Unmarshal_object body :=
       if String.eqb body "{change}" then (change, None)
       else (∅, Some "invalid character");
     Unmarshal_objects body :=
       if String.eqb body "[{change}]" then ([change], None)
       else if String.eqb body "[]" then ([], None)
       else ([], Some "invalid character");
     Marshal_value data := ("{review}", None) |}.

Definition url : Url := {| PathEscape name := name |}.

(** *** The dispatch side *)

Definition engines : lint.Engines :=
  {| lint.Dial target :=
       if String.eqb target "down:9" then Some "connection refused" else None;
     lint.SendLint target message :=
       if String.eqb target "go:1" then ("reply-go", None)
       else if String.eqb target "txt:2" then ("reply-txt", None)
       else ("", Some "unavailable") |}.

Definition only (ext : string) : config.Filter :=
  {| config.Include_ := {| config.Extension := [ext] |} |}.

Definition go_engine : config.Lint :=
  {| config.Filter_ := only ".go"; config.Host := "go"; config.Port := 1 |}.
Definition txt_engine : config.Lint :=
  {| config.Filter_ := only ".txt"; config.Host := "txt"; config.Port := 2 |}.
Definition down_engine : config.Lint :=
  {| config.Filter_ := only ".go"; config.Host := "down"; config.Port := 9 |}.

Definition linter (engines : list config.Lint) : lint.lint :=
  {| lint.cfg := {| lint.Lints := engines |} |}.

(** A staging root [/r] that holds [a.go] and [b.txt]. *)
Definition staged : os.FS :=
  {[ "/" := os.Directory;
     "/r" := os.Directory;
     "/r/a.go" := os.File "package a";
     "/r/b.txt" := os.File "helo" ]}.

Definition files : list string := ["a.go"; "b.txt"].

(** Both engines succeed; the text engine's goroutine runs first. *)
Definition both : lint.lint := linter [go_engine; txt_engine].
Definition txt_first : list lint.turn :=
  [lint.Goroutine 1; lint.Goroutine 1; lint.Goroutine 1; lint.Goroutine 1;
   lint.Goroutine 0; lint.Goroutine 0; lint.Goroutine 0; lint.Goroutine 0;
   lint.Main; lint.Main; lint.Main].
Definition txt_first_state : lint.state :=
  {| lint.chan := [];
     lint.capacity := 2;
     lint.goroutines := [[]; []];
     lint.ranging := 0;
     lint.ret := [spell; golint];
     lint.returned := Some ([spell; golint], None);
     lint.received := [{| lint.data := [spell]; lint.err := None |};
                       {| lint.data := [golint]; lint.err := None |}];
     lint.effects := [lint.EvOpen "/r/b.txt"; lint.EvDial "txt:2";
                      lint.EvSendLint "txt:2" "b.txt=helo";
                      lint.EvOpen "/r/a.go"; lint.EvDial "go:1";
                      lint.EvSendLint "go:1" "a.go=package a"] |}.

(** One engine is down; its goroutine runs first, then [Run] drains. *)
Definition one_down : lint.lint := linter [go_engine; down_engine].
Definition refused : error :=
  "failed to routine: failed to dial: connection refused".
Definition down_first : list lint.turn :=
  [lint.Goroutine 1; lint.Goroutine 1; lint.Goroutine 1; lint.Main].
Definition down_first_state : lint.state :=
  {| lint.chan := [];
     lint.capacity := 2;
     lint.goroutines :=
       [[lint.EvOpen "/r/a.go"; lint.EvDial "go:1";
         lint.EvSendLint "go:1" "a.go=package a";
         lint.EvResult {| lint.data := [golint]; lint.err := None |}];
        [lint.EvResult {| lint.data := []; lint.err := None |}]];
     lint.ranging := 2;
     lint.ret := [];
     lint.returned := Some ([], Some refused);
     lint.received := [{| lint.data := []; lint.err := Some refused |}];
     lint.effects := [lint.EvOpen "/r/a.go"; lint.EvDial "down:9"] |}.

(** Nothing is staged and the only engine is down. *)
Definition alone : lint.lint := linter [down_engine].
Definition unreadable : error :=
  "failed to marshal: failed to read: failed to open: "
  +:+ "open /r/a.go: no such file or directory".
Definition alone_run : list lint.turn :=
  [lint.Goroutine 0; lint.Goroutine 0; lint.Main;
   lint.Goroutine 0; lint.Goroutine 0].
Definition alone_state : lint.state :=
  {| lint.chan := [{| lint.data := []; lint.err := Some refused |}];
     lint.capacity := 1;
     lint.goroutines :=
       [[lint.EvResult {| lint.data := []; lint.err := None |}]];
     lint.ranging := 1;
     lint.ret := [];
     lint.returned := Some ([], Some unreadable);
     lint.received := [{| lint.data := []; lint.err := Some unreadable |}];
     lint.effects := [lint.EvOpen "/r/a.go"; lint.EvDial "down:9"] |}.

(** *** The review side *)

Definition vote : config.Vote :=
  {| config.Approval := "+1"; config.Disapproval := "-1";
     config.Label := "Code-Review"; config.Message := "Voting by lintflow" |}.

Definition adapter : review.gerrit :=
  {| review.r := {| config.RHost := "http://gerrit"; config.RPort := 8080;
                    config.User := ""; config.Pass := "";
                    config.Vote_ := vote |} |}.

Definition reply (body : string) : review.response * option error :=
  ({| review.StatusCode := 200; review.Body := (body, None) |}, None).

Definition world : review.World :=
  {| review.Getwd := ("/w", None);
     review.Today := "2020-01-02";
     review.NewRequest method _url := None;
     review.Do req :=
       if strings.HasSuffix (review.URL req) "/patch" then reply "cGF0Y2g="
       else if strings.HasSuffix (review.URL req) "/content"
            then reply "cGFja2FnZSBh"
       else if strings.HasSuffix (review.URL req) "/review" then reply "{}"
       else reply ")]}'[{change}]";
     review.RangeOrder n m := (map_to_list m).*1 |}.

(** What [Fetch] of a commit leaves in an empty store, and the root it
    returns. *)
Definition staging_root : string := "/w/gerrit-2020-01-02".
Definition fetched : os.FS :=
  (@review.Fetch names json url adapter world "c0ffee" ∅).1.
Definition not_found : error :=
  "failed to read: failed to open: "
  +:+ "open /w/gerrit-2020-01-02/a.go: no such file or directory".

(** The same review system answering the query with three bytes. *)
Definition short_world : review.World :=
  {| review.Getwd := ("/w", None);
     review.Today := "2020-01-02";
     review.NewRequest method _url := None;
     review.Do req := reply ")]}";
     review.RangeOrder n m := (map_to_list m).*1 |}.

(** Six JSON documents with their values, and a codec whose decoding
    functions are the typed decoding of what these documents parse to. *)
Definition documents : JsonSyntax :=
  {| Parse body :=
       if String.eqb body "null" then inl VNil
       else if String.eqb body "[]" then inl (VSlice [])
       else if String.eqb body "{}" then inl (VMap ∅)
       else if String.eqb body "[null]" then inl (VSlice [VNil])
       else if String.eqb body "[{}]" then inl (VSlice [VMap ∅])
       else if String.eqb body "[1]" then inl (VSlice [VNumber 1])
       else inr "invalid character" |}.

Definition typed : Json :=
  {| Marshal_files buf := ("{}", None);
     Unmarshal_groups data := ([], None);
     Unmarshal_object body :=
       match @Parse documents body with
       | inl v => encoding_json.into_map ∅ v
       | inr e => (∅, Some e)
       end;
     Unmarshal_objects body :=
       match @Parse documents body with
       | inl v => encoding_json.into_slice v
       | inr e => ([], Some e)
       end;
     Marshal_value data := ("{review}", None) |}.

(** A codec that decodes every reply to one empty object, and one that
    decodes it to the change without the files of its revision. *)
Definition json_bare : Json :=
  {| Marshal_files buf := ("{}", None);
     Unmarshal_groups data := ([], None);
     Unmarshal_object body := (∅, None);
     Unmarshal_objects body := ([∅], None);
     Marshal_value data := ("{review}", None) |}.

Definition current_without_files : gmap string value :=
  {[ "_number" := VNumber 2 ]}.
Definition change_without_files : gmap string value :=
  {[ "_number" := VNumber 1;
     "current_revision" := VString "abc";
     "revisions" := VMap {[ "abc" := VMap current_without_files ]} ]}.
Definition json_without_files : Json :=
  {| Marshal_files buf := ("{}", None);
     Unmarshal_groups data := ([], None);
     Unmarshal_object body := (change_without_files, None);
     Unmarshal_objects body := ([change_without_files], None);
     Marshal_value data := ("{review}", None) |}.

(** The store after the patch alone has been staged. *)
Definition patch_staged : os.FS :=
  {[ "/" := os.Directory;
     "/w" := os.Directory;
     "/w/gerrit-2020-01-02" := os.Directory;
     "/w/gerrit-2020-01-02/1" := os.Directory;
     "/w/gerrit-2020-01-02/1/abc" := os.Directory;
     "/w/gerrit-2020-01-02/1/abc/patch.base64" := os.File "cGF0Y2g=" ]}.
End scenario.

(** * Properties *)

(** ** The filter of the dispatch engine *)

Section Filter.
Context `{!proto.Names}.
Import proto.

Lemma filter_helper_range_spec exts name m :
  lint.filter_helper_range exts name m
  = m || bool_decide (lint.selecting_extension name ∈ exts).
Proof.
  induction exts as [|val rest IH]; cbn [lint.filter_helper_range].
  - rewrite bool_decide_eq_false_2; [by rewrite orb_false_r | apply not_elem_of_nil].
  - fold (lint.selecting_extension name).
    destruct (String.eqb_spec val (lint.selecting_extension name)) as [->|Hne].
    + rewrite bool_decide_eq_true_2; [by rewrite orb_true_r | left].
    + rewrite IH. f_equal. apply bool_decide_ext.
      rewrite elem_of_cons. split; [by right | by intros [Heq|Hin]].
Qed.

Lemma filter_helper_spec f name :
  lint.filter_helper f name = true
  <-> lint.selecting_extension name ∈ config.Extension (config.Include_ f).
Proof.
  unfold lint.filter_helper. rewrite filter_helper_range_spec. simpl.
  apply bool_decide_eq_true.
Qed.

Lemma filter_range_from l f data buf :
  fold_left
    (fun buf val => if lint.filter_helper f val then buf ++ [val] else buf)
    data buf
  = buf ++ lint.filter l f data.
Proof.
  unfold lint.filter. revert buf.
  induction data as [|val rest IH] using rev_ind; intros buf.
  - simpl. by rewrite app_nil_r.
  - rewrite !fold_left_app. simpl. rewrite IH.
    destruct (lint.filter_helper f val); [by rewrite app_assoc | done].
Qed.

Lemma lint_filter_cons l f val data :
  lint.filter l f (val :: data)
  = if lint.filter_helper f val then val :: lint.filter l f data
    else lint.filter l f data.
Proof.
  unfold lint.filter at 1. simpl.
  rewrite (filter_range_from l).
  by destruct (lint.filter_helper f val).
Qed.

Lemma lint_filter_is_filter (l : lint.lint) (f : config.Filter)
      (data : list string) :
  lint.filter l f data
  = base.filter
      (fun name =>
         lint.selecting_extension name ∈ config.Extension (config.Include_ f))
      data.
Proof.
  induction data as [|val rest IH].
  - reflexivity.
  - rewrite lint_filter_cons, filter_cons, IH.
    destruct (lint.filter_helper f val) eqn:Hh.
    + rewrite decide_True; [done | by apply filter_helper_spec].
    + rewrite decide_False; [done |].
      intros Hin. apply filter_helper_spec in Hin. congruence.
Qed.

(** C6: [filter] keeps exactly the names whose extension, taken after the
    content-suffix marker is stripped, is in the include set, in the
    order of the input. *)
Theorem filter_keeps_included_in_order (l : lint.lint) (f : config.Filter)
        (data : list string) :
  lint.filter l f data
  = base.filter
      (fun name =>
         lint.selecting_extension name ∈ config.Extension (config.Include_ f))
      data.
Proof. apply lint_filter_is_filter. Qed.

Lemma filter_nil_iff l f data :
  lint.filter l f data = []
  <-> forall name, name ∈ data ->
        lint.selecting_extension name ∉ config.Extension (config.Include_ f).
Proof.
  rewrite lint_filter_is_filter.
  induction data as [|val rest IH].
  - split; [intros _ name Hin; by apply elem_of_nil in Hin | done].
  - rewrite filter_cons. case_decide as Hd.
    + split; [done |]. intros Hall. exfalso.
      apply (Hall val); [left | done].
    + rewrite IH. split.
      * intros Hall name Hin. apply elem_of_cons in Hin as [->|Hin]; auto.
      * intros Hall name Hin. apply Hall. by right.
Qed.
End Filter.

(** ** One engine's goroutine *)

Section Task.
Context `{!proto.Names} `{!Json}.
Import proto.

Implicit Types (l : lint.lint) (w : lint.Engines) (fs : os.FS)
         (root : string) (files : list string) (val : config.Lint).

Lemma sends_app p q : lint.sends (p ++ q) = lint.sends p ++ lint.sends q.
Proof.
  induction p as [|ev p IH]; [done |].
  destruct ev; simpl; by rewrite IH.
Qed.

Lemma marshal_range_sends fs root data buf :
  lint.sends (lint.marshal_range fs root data buf).2 = [].
Proof.
  revert buf.
  induction data as [|val rest IH]; intros buf;
    cbn [lint.marshal_range]; [done |].
  destruct (String.eqb val ""); [done |].
  destruct (lint.marshal_helper fs (filepath.Join [root; val])) as [c [e|]];
    [done |].
  specialize (IH (<[val := c]> buf)).
  destruct (lint.marshal_range fs root rest (<[val := c]> buf)) as [[b e] evs].
  done.
Qed.

Lemma marshal_sends l fs root data :
  lint.sends (lint.marshal l fs root data).1 = [].
Proof.
  unfold lint.marshal.
  pose proof (marshal_range_sends fs root data ∅) as Hs.
  destruct (lint.marshal_range fs root data ∅) as [[buf e] evs].
  simpl in Hs.
  destruct (Nat.eqb (size buf) 0); [done |].
  destruct e; [done |].
  destruct (Marshal_files buf) as [ret [e|]]; done.
Qed.

Lemma routine_sends l w host port data :
  lint.sends (lint.routine l w host port data).1 = [].
Proof.
  unfold lint.routine.
  destruct (lint.Dial w _); [done |].
  destruct (lint.SendLint w _ data) as [reply [e|]]; [done |].
  destruct (lint.routine_helper reply) as [buf [e|]]; done.
Qed.

(** With an empty selection the goroutine only sends the empty result. *)
Lemma task_nothing_selected l w fs root files val :
  lint.filter l (config.Filter_ val) files = [] ->
  lint.task l w fs root files val
  = [lint.EvResult {| lint.data := []; lint.err := None |}].
Proof. intros Hf. unfold lint.task. by rewrite Hf. Qed.

(** What the goroutine sends when something is selected: an error for
    each of the two calls that failed, and then, in every case, a result
    without error. *)
Lemma task_sends_selected l w fs root files val :
  lint.filter l (config.Filter_ val) files <> [] ->
  let f := lint.filter l (config.Filter_ val) files in
  let m := lint.marshal l fs root f in
  let x := lint.routine l w (config.Host val) (config.Port val) m.2.1 in
  lint.sends (lint.task l w fs root files val)
  = match m.2.2 with
    | Some e => [{| lint.data := [];
                    lint.err := Some (errors.Wrap e "failed to marshal") |}]
    | None => []
    end
    ++ match x.2.2 with
       | Some e => [{| lint.data := [];
                       lint.err := Some (errors.Wrap e "failed to routine") |}]
       | None => []
       end
    ++ [{| lint.data := x.2.1; lint.err := None |}].
Proof.
  intros Hf. cbv zeta. unfold lint.task.
  set (f := lint.filter l (config.Filter_ val) files) in *.
  assert (Nat.eqb (length f) 0 = false) as ->
      by (destruct f; [done | reflexivity]).
  cbn [negb].
  pose proof (marshal_sends l fs root f) as Hm.
  destruct (lint.marshal l fs root f) as [ev_m [m e]]. cbn [fst snd] in *.
  pose proof (routine_sends l w (config.Host val) (config.Port val) m) as Hr.
  destruct (lint.routine l w (config.Host val) (config.Port val) m)
    as [ev_r [x e']]. cbn [fst snd] in *.
  rewrite !sends_app, Hm, Hr.
  destruct e, e'; reflexivity.
Qed.

(** The first thing the goroutine sends is the engine's outcome. *)
Lemma task_sends_outcome_first l w fs root files val :
  exists more,
    lint.sends (lint.task l w fs root files val)
    = lint.outcome l w fs root files val :: more
    /\ (lint.err (lint.outcome l w fs root files val) = None -> more = []).
Proof.
  destruct (decide (lint.filter l (config.Filter_ val) files = []))
    as [Hf|Hf].
  - exists []. rewrite task_nothing_selected by done.
    unfold lint.outcome. rewrite Hf. done.
  - rewrite (task_sends_selected l w fs root files val Hf).
    unfold lint.outcome.
    set (f := lint.filter l (config.Filter_ val) files) in *.
    assert (Nat.eqb (length f) 0 = false) as ->
        by (destruct f; [done | reflexivity]).
    cbn [negb].
    destruct (lint.marshal l fs root f).2.2 as [e|]; simpl.
    + eexists. split; [reflexivity | done].
    + destruct (lint.routine l w _ _ _).2.2 as [e|]; simpl.
      * eexists. split; [reflexivity | done].
      * exists []. done.
Qed.

(** C7: an engine whose include set matches none of the input files
    opens no file, dials nothing and calls nothing: its goroutine does
    one thing, which is to send the empty finding list with no error. *)
Theorem empty_selection_short_circuit l w fs root files val :
  (forall name, name ∈ files ->
     lint.selecting_extension name
     ∉ config.Extension (config.Include_ (config.Filter_ val))) ->
  lint.task l w fs root files val
  = [lint.EvResult {| lint.data := []; lint.err := None |}]
  /\ lint.outcome l w fs root files val
     = {| lint.data := []; lint.err := None |}.
Proof.
  intros Hnone. apply (filter_nil_iff l) in Hnone. split.
  - by apply task_nothing_selected.
  - unfold lint.outcome. by rewrite Hnone.
Qed.
End Task.

(** ** The run: moves, schedules and what they preserve *)

Section Moves.
Import lint.

Implicit Types (s : state) (gs : list (list event)) (p : list event)
         (r : result) (t : turn) (sched : list turn).

Lemma exec_app sched1 sched2 s :
  exec (sched1 ++ sched2) s
  = match exec sched1 s with
    | Some s' => exec sched2 s'
    | None => None
    end.
Proof.
  revert s. induction sched1 as [|t sched1 IH]; intros s; simpl; [done |].
  destruct (step t s); [apply IH | done].
Qed.

Lemma exec_snoc sched t s s' :
  exec (sched ++ [t]) s = Some s' ->
  exists s0, exec sched s = Some s0 /\ step t s0 = Some s'.
Proof.
  rewrite exec_app. destruct (exec sched s) as [s0|]; [|done].
  simpl. destruct (step t s0) as [s1|] eqn:Hs; [|done].
  intros [= <-]. eauto.
Qed.

(** *** Replacing what is left of one goroutine *)

Lemma concat_length_insert gs i ev rest :
  gs !! i = Some (ev :: rest) ->
  S (length (concat (<[i := rest]> gs))) = length (concat gs).
Proof.
  revert i. induction gs as [|p gs IH]; intros [|i] Hi; simplify_eq/=.
  - rewrite !length_app. simpl. lia.
  - rewrite !length_app. rewrite <- (IH i Hi). lia.
Qed.

Lemma pending_insert_silent gs i p p' :
  gs !! i = Some p -> sends p' = sends p ->
  pending (<[i := p']> gs) = pending gs.
Proof.
  unfold pending.
  revert i. induction gs as [|q gs IH]; intros [|i] Hi Hs; simplify_eq/=.
  - by rewrite Hs.
  - by rewrite (IH i).
Qed.

Lemma pending_insert_sent gs i p p' r :
  gs !! i = Some p -> sends p = r :: sends p' ->
  Permutation (r :: pending (<[i := p']> gs)) (pending gs).
Proof.
  unfold pending.
  revert i. induction gs as [|q gs IH]; intros [|i] Hi Hs; simplify_eq/=.
  - by rewrite Hs.
  - rewrite <- (IH i Hi Hs). apply Permutation_middle.
Qed.

Lemma finished_insert gs i p p' :
  gs !! i = Some p ->
  finished (<[i := p']> gs) + (if Nat.eqb (length (sends p)) 0 then 1 else 0)
  = finished gs + (if Nat.eqb (length (sends p')) 0 then 1 else 0).
Proof.
  unfold finished.
  revert i. induction gs as [|q gs IH]; intros [|i] Hi; simplify_eq/=.
  - destruct (Nat.eqb (length (sends p)) 0),
             (Nat.eqb (length (sends p')) 0); simpl; lia.
  - specialize (IH i Hi).
    destruct (Nat.eqb (length (sends q)) 0); simpl; lia.
Qed.

Lemma finished_le gs : finished gs <= length gs.
Proof. unfold finished. apply filter_length_le. Qed.

Lemma finished_lt gs i p :
  gs !! i = Some p -> sends p <> [] -> finished gs < length gs.
Proof.
  unfold finished.
  revert i. induction gs as [|q gs IH]; intros [|i] Hi Hp; simplify_eq/=.
  - destruct (sends p) eqn:E; [done |]. simpl.
    pose proof (filter_length_le
                  (fun p => Nat.eqb (length (sends p)) 0) gs). lia.
  - specialize (IH i Hi Hp).
    destruct (Nat.eqb (length (sends q)) 0); simpl; lia.
Qed.

Lemma unfinished_exists gs :
  finished gs < length gs ->
  exists i ev rest, gs !! i = Some (ev :: rest).
Proof.
  unfold finished.
  induction gs as [|q gs IH]; simpl; [lia |].
  destruct q as [|ev rest].
  - simpl. intros Hlt. destruct IH as (i & ev & rest & Hi); [lia |].
    exists (S i), ev, rest. done.
  - intros _. exists 0, ev, rest. done.
Qed.

(** *** Every move uses up budget *)

Lemma step_budget t s s' : step t s = Some s' -> budget s' < budget s.
Proof.
  unfold step, budget. destruct t as [i|].
  - destruct (goroutines s !! i) as [[|ev rest]|] eqn:Hi; [done | | done].
    pose proof (concat_length_insert _ _ _ _ Hi) as Hlen.
    destruct ev.
    1-3: intros [= <-]; simpl; lia.
    destruct (Nat.ltb (length (chan s)) (capacity s)); [|done].
    intros [= <-]; simpl. rewrite length_app. simpl. lia.
  - destruct (returned s); [done |].
    destruct (ranging s).
    + intros [= <-]; simpl. lia.
    + destruct (chan s) as [|r rest]; [done |].
      destruct (err r); intros [= <-]; simpl; lia.
Qed.

Lemma exec_budget sched s s' :
  exec sched s = Some s' -> length sched + budget s' <= budget s.
Proof.
  revert s. induction sched as [|t sched IH]; intros s; simpl.
  - intros [= <-]. lia.
  - destruct (step t s) as [s1|] eqn:Hs; [|done].
    intros He. apply IH in He. apply step_budget in Hs. lia.
Qed.
End Moves.

Section Invariant.
Import lint.

Implicit Types (s : state) (gs : list (list event)) (p : list event)
         (r : result) (t : turn) (sched : list turn).

Lemma ok_last_app_failed pre bad post :
  Forall succeeded (pre ++ bad :: post) -> err bad <> None -> False.
Proof.
  intros Hall Hbad. apply Forall_app in Hall as [_ Hall].
  apply Forall_cons in Hall as [Hb _]. by apply Hbad.
Qed.

(** A goroutine does something other than a send. *)
Lemma move_silent n all s s' i ev rest :
  invariant n all s ->
  goroutines s !! i = Some (ev :: rest) ->
  sends (ev :: rest) = sends rest ->
  chan s' = chan s -> capacity s' = capacity s ->
  goroutines s' = <[i := rest]> (goroutines s) ->
  ranging s' = ranging s -> ret s' = ret s ->
  returned s' = returned s -> received s' = received s ->
  invariant n all s'.
Proof.
  intros [Hcap Hgs Hok Hall Hord Hdr Hret] Hi Hs Ech Ecap Egs Erg Ert Ertd Erc.
  assert (history s' = history s) as Eh by (unfold history; congruence).
  assert (finished (goroutines s') = finished (goroutines s)) as Ef.
  { rewrite Egs. pose proof (finished_insert _ _ _ rest Hi) as Hf.
    rewrite Hs in Hf. lia. }
  split.
  - congruence.
  - rewrite Egs, length_insert. done.
  - rewrite Egs. apply Forall_insert; [done |].
    rewrite <- Hs. by eapply (Forall_lookup_1 _ _ _ _ Hok).
  - rewrite Eh, Egs, (pending_insert_silent _ _ _ _ Hi); done.
  - rewrite Eh, Ef. done.
  - rewrite Ertd, Erc, Erg, Ert. done.
  - rewrite Ertd, Erc. done.
Qed.

(** A goroutine sends a result. *)
Lemma move_send n all s s' i r rest :
  invariant n all s ->
  goroutines s !! i = Some (EvResult r :: rest) ->
  chan s' = chan s ++ [r] -> capacity s' = capacity s ->
  goroutines s' = <[i := rest]> (goroutines s) ->
  ranging s' = ranging s -> ret s' = ret s ->
  returned s' = returned s -> received s' = received s ->
  invariant n all s'.
Proof.
  intros [Hcap Hgs Hok Hall Hord Hdr Hret] Hi Ech Ecap Egs Erg Ert Ertd Erc.
  assert (history s' = history s ++ [r]) as Eh.
  { unfold history. rewrite Erc, Ech. by rewrite app_assoc. }
  pose proof (Forall_lookup_1 _ _ _ _ Hok Hi) as Hp. simpl in Hp.
  destruct Hp as [Hlast Hrest].
  split.
  - congruence.
  - rewrite Egs, length_insert. done.
  - rewrite Egs. by apply Forall_insert.
  - rewrite Eh, Egs. rewrite <- Hall.
    rewrite <- (pending_insert_sent (goroutines s) i _ rest r Hi eq_refl).
    rewrite <- app_assoc. simpl. by apply Permutation_app_head.
  - rewrite Eh, Egs.
    destruct Hord as [[Hsucc Hlen]|(pre & bad & post & Hh & Hpre & Hbad & Hlt)].
    + destruct (err r) as [e|] eqn:Er.
      * right. exists (history s), r, []. repeat split; try done.
        -- by rewrite Er.
        -- rewrite Hlen, <- Hgs. by eapply finished_lt; [exact Hi |].
      * left. split.
        -- apply Forall_app. split; [done |]. by apply Forall_singleton.
        -- rewrite length_app, Hlen. simpl.
           pose proof (finished_insert _ _ _ rest Hi) as Hf. simpl in Hf.
           rewrite (Hlast eq_refl) in Hf. simpl in Hf. lia.
    + right. exists pre, bad, (post ++ [r]). repeat split; try done.
      rewrite Hh. by rewrite <- app_assoc.
  - rewrite Ertd, Erc, Erg, Ert. done.
  - rewrite Ertd, Erc. done.
Qed.

(** Every move preserves the invariant. *)
Lemma step_invariant n all t s s' :
  invariant n all s -> step t s = Some s' -> invariant n all s'.
Proof.
  intros Hinv Hstep. unfold step in Hstep. destruct t as [i|].
  - destruct (goroutines s !! i) as [[|ev rest]|] eqn:Hi; [done | | done].
    destruct ev.
    1-3: injection Hstep as <-; by eapply move_silent.
    destruct (Nat.ltb (length (chan s)) (capacity s)); [|done].
    injection Hstep as <-. by eapply move_send.
  - destruct Hinv as [Hcap Hgs Hok Hall Hord Hdr Hret].
    destruct (returned s) eqn:Ertd; [done |].
    destruct (Hdr eq_refl) as (Hlen & Hsucc & Hr).
    destruct (ranging s) as [|k] eqn:Erg.
    + injection Hstep as <-. split; simpl; try done.
      intros out [= <-]. right. repeat split; [done | lia | by rewrite Hr].
    + destruct (chan s) as [|r rest] eqn:Ech; [done |].
      destruct (err r) as [e|] eqn:Er; injection Hstep as <-.
      * split; simpl; try done.
        -- unfold history in *. simpl. rewrite Ech in Hall.
           rewrite <- (app_assoc (received s) [r] rest). exact Hall.
        -- unfold history in *. simpl. rewrite Ech in Hord.
           rewrite <- (app_assoc (received s) [r] rest). exact Hord.
        -- intros out [= <-]. left. exists (received s), r, e. done.
      * split; simpl; try done.
        -- unfold history in *. simpl. rewrite Ech in Hall.
           rewrite <- (app_assoc (received s) [r] rest). exact Hall.
        -- unfold history in *. simpl. rewrite Ech in Hord.
           rewrite <- (app_assoc (received s) [r] rest). exact Hord.
        -- intros _. repeat split.
           ++ rewrite length_app. simpl. lia.
           ++ apply Forall_app. split; [done |]. by apply Forall_singleton.
           ++ rewrite map_app, concat_app, Hr. simpl. rewrite app_nil_r.
              destruct (data r); simpl; [by rewrite app_nil_r | done].
Qed.

Lemma exec_invariant n all sched s s' :
  invariant n all s -> exec sched s = Some s' -> invariant n all s'.
Proof.
  revert s. induction sched as [|t sched IH]; intros s Hinv; simpl.
  - by intros [= <-].
  - destruct (step t s) as [s1|] eqn:Hs; [|done].
    apply IH. by eapply step_invariant.
Qed.
End Invariant.

(** ** Run *)

Section Dispatch.
Context `{!proto.Names} `{!Json}.
Import lint.

Implicit Types (l : lint.lint) (w : Engines) (fs : os.FS) (root : string)
         (files : list string) (val : config.Lint)
         (s : state) (sched : list turn).

Lemma task_ok_last l w fs root files val :
  ok_last (sends (task l w fs root files val)).
Proof.
  destruct (decide (filter l (config.Filter_ val) files = [])) as [Hf|Hf].
  - rewrite task_nothing_selected by done. simpl. done.
  - rewrite (task_sends_selected l w fs root files val Hf).
    destruct (marshal l fs root _).2.2, (routine l w _ _ _).2.2; simpl;
      repeat split; done.
Qed.

Lemma task_unfinished l w fs root files val :
  sends (task l w fs root files val) <> [].
Proof.
  destruct (task_sends_outcome_first l w fs root files val) as (more & -> & _).
  done.
Qed.

Lemma tasks_ok_last l w fs root files vals :
  Forall (fun p => ok_last (sends p)) (map (task l w fs root files) vals).
Proof.
  induction vals as [|val vals IH]; simpl; constructor;
    [apply task_ok_last | done].
Qed.

Lemma tasks_unfinished l w fs root files vals :
  finished (map (task l w fs root files) vals) = 0.
Proof.
  unfold finished. induction vals as [|val vals IH]; simpl; [done |].
  pose proof (task_unfinished l w fs root files val) as Hne.
  destruct (sends (task l w fs root files val)); [done |]. simpl. exact IH.
Qed.

(** The invariant holds when the goroutines have just been started. *)
Lemma spawn_invariant l w fs root files :
  invariant (length (Lints (cfg l)))
            (pending (goroutines (spawn l w fs root files)))
            (spawn l w fs root files).
Proof.
  split; simpl.
  - done.
  - by rewrite length_map.
  - apply tasks_ok_last.
  - done.
  - left. split; [constructor |]. by rewrite tasks_unfinished.
  - intros _. split; [lia | split; [constructor | done]].
  - done.
Qed.

Lemma reachable_invariant l w fs root files sched s :
  exec sched (spawn l w fs root files) = Some s ->
  invariant (length (Lints (cfg l)))
            (pending (goroutines (spawn l w fs root files))) s.
Proof. apply exec_invariant, spawn_invariant. Qed.

(** [Run] is never stuck before it has returned: either it can make its
    own move or some goroutine can make one. *)
Lemma invariant_progress n all s :
  invariant n all s -> returned s = None ->
  exists t s', step t s = Some s'.
Proof.
  intros [Hcap Hgs Hok Hall Hord Hdr Hret] Hnone.
  destruct (Hdr Hnone) as (Hlen & Hsucc & _).
  destruct (ranging s) as [|k] eqn:Erg.
  { exists Main. unfold step. rewrite Hnone, Erg. eauto. }
  destruct (chan s) as [|r rest] eqn:Ech.
  - assert (history s = received s) as Eh
        by (unfold history; rewrite Ech; apply app_nil_r).
    rewrite Eh in Hord.
    destruct Hord as [[_ Hfin]|(pre & bad & post & Hh & _ & Hbad & _)].
    + destruct (unfinished_exists (goroutines s)) as (i & ev & more & Hi);
        [lia |].
      exists (Goroutine i). unfold step. rewrite Hi.
      destruct ev; eauto.
      rewrite Ech, Hcap. simpl.
      destruct (Nat.ltb_spec 0 n); [eauto | lia].
    + rewrite Hh in Hsucc. by destruct (ok_last_app_failed _ _ _ Hsucc).
  - exists Main. unfold step. rewrite Hnone, Erg, Ech.
    destruct (err r); eauto.
Qed.

(** From every state the run can be continued until [Run] has returned. *)
Lemma invariant_returns n all s :
  invariant n all s ->
  exists sched s', exec sched s = Some s' /\ returned s' <> None.
Proof.
  remember (budget s) as b eqn:Eb. revert s Eb.
  induction b as [b IH] using lt_wf_ind. intros s -> Hinv.
  destruct (returned s) as [out|] eqn:Hr.
  - exists [], s. split; [done | by rewrite Hr].
  - destruct (invariant_progress _ _ _ Hinv Hr) as (t & s1 & Hstep).
    destruct (IH (budget s1) (step_budget _ _ _ Hstep) s1 eq_refl)
      as (sched & s' & He & Hret).
    { by eapply step_invariant. }
    exists (t :: sched), s'. simpl. rewrite Hstep. done.
Qed.

Lemma finished_all_pending (gs : list (list event)) :
  finished gs = length gs -> pending gs = [].
Proof.
  unfold finished, pending.
  induction gs as [|p gs IH]; simpl; [done |].
  pose proof (filter_length_le (fun p => Nat.eqb (length (sends p)) 0) gs).
  destruct (sends p) eqn:Ep; simpl; [|lia].
  intros Hlen. apply IH. lia.
Qed.

Lemma outcome_pending l w fs root files vals val :
  val ∈ vals ->
  outcome l w fs root files val ∈ pending (map (task l w fs root files) vals).
Proof.
  unfold pending. induction vals as [|v vals IH]; intros Hin.
  - by apply elem_of_nil in Hin.
  - simpl. apply elem_of_app. apply elem_of_cons in Hin as [->|Hin].
    + left.
      destruct (task_sends_outcome_first l w fs root files v) as (m & -> & _).
      left.
    + right. by apply IH.
Qed.

Lemma pending_all_succeed l w fs root files vals :
  (forall val, val ∈ vals -> err (outcome l w fs root files val) = None) ->
  pending (map (task l w fs root files) vals)
  = map (outcome l w fs root files) vals.
Proof.
  unfold pending. induction vals as [|v vals IH]; intros Hall; [done |].
  simpl. rewrite IH by (intros val Hin; apply Hall; by right).
  destruct (task_sends_outcome_first l w fs root files v) as (m & -> & Hm).
  rewrite Hm by (apply Hall; left). done.
Qed.

Lemma prefix_holds_early {A} (l1 l2 pre post : list A) (x : A) :
  l1 ++ l2 = pre ++ x :: post -> length pre < length l1 -> x ∈ l1.
Proof.
  intros Heq Hlt.
  assert ((l1 ++ l2) !! length pre = Some x) as Hx
      by (rewrite Heq; apply list_lookup_middle; done).
  rewrite lookup_app_l in Hx by done.
  by eapply list_elem_of_lookup_2.
Qed.

(** C4: when the outcome of at least one configured engine is an error,
    whatever [Run] returns, under any schedule, is the first error it has
    drained, with no findings: the results drained before it carry no
    error and their findings are dropped.  And [Run] does return: it is
    never stuck before it has, every schedule can be continued to the
    return, and no schedule is longer than the budget of the start. *)
Theorem Run_fails_fast l w fs root files :
  (exists val, val ∈ Lints (cfg l)
               /\ err (outcome l w fs root files val) <> None) ->
  forall sched s,
    exec sched (spawn l w fs root files) = Some s ->
    (forall out,
        Run l w fs root files sched = Some out ->
        exists oks bad e,
          received s = oks ++ [bad]
          /\ Forall succeeded oks
          /\ err bad = Some e
          /\ bad ∈ pending (goroutines (spawn l w fs root files))
          /\ out = ([], Some e))
    /\ (exists sched', Run l w fs root files (sched ++ sched') <> None)
    /\ (returned s = None -> exists t s', step t s = Some s')
    /\ length sched <= budget (spawn l w fs root files).
Proof.
  intros (val & Hval & Hfail) sched s Hexec.
  pose proof (reachable_invariant _ _ _ _ _ _ _ Hexec) as Hinv.
  split; [|split; [|split]].
  - intros out. unfold Run. rewrite Hexec. intros Hout.
    destruct Hinv as [Hcap Hgs Hok Hall Hord Hdr Hret].
    destruct (Hret out Hout)
      as [(oks & bad & e & Hrec & Hoks & Hbad & ->)|(Hsucc & Hlen & _)].
    + exists oks, bad, e. repeat split; try done.
      rewrite <- Hall. apply elem_of_app. left.
      unfold history. rewrite Hrec. apply elem_of_app. left.
      apply elem_of_app. right. left.
    + exfalso.
      destruct Hord as [[Hh Hfin]|(pre & bad & post & Hh & _ & Hbad & Hlt)].
      * pose proof (finished_le (goroutines s)) as Hle.
        assert (length (received s) <= length (history s)) as Hrh
            by (unfold history; rewrite length_app; lia).
        rewrite (finished_all_pending (goroutines s)) in Hall by lia.
        rewrite app_nil_r in Hall.
        apply Hfail.
        eapply (proj1 (Forall_forall succeeded (history s)) Hh).
        rewrite Hall. by apply outcome_pending.
      * apply Hbad.
        eapply (proj1 (Forall_forall succeeded (received s)) Hsucc).
        eapply prefix_holds_early; [exact Hh | lia].
  - destruct (invariant_returns _ _ _ Hinv) as (sched' & s' & He & Hr).
    exists sched'. unfold Run. rewrite exec_app, Hexec, He. done.
  - intros Hnone. by eapply invariant_progress.
  - apply exec_budget in Hexec. lia.
Qed.

(** C3, as the code has it: when every configured engine succeeds,
    whatever [Run] returns, under any schedule, is the concatenation of
    the engines' findings in the order in which their results arrived on
    the channel, each engine's findings kept together and in their own
    order, and no error; the results that arrived are the outcomes of the
    configured engines in some order.  And [Run] does return. *)
Theorem Run_concatenates_in_arrival_order l w fs root files :
  (forall val, val ∈ Lints (cfg l) ->
               err (outcome l w fs root files val) = None) ->
  forall sched s,
    exec sched (spawn l w fs root files) = Some s ->
    (forall out,
        Run l w fs root files sched = Some out ->
        Permutation (received s)
                    (map (outcome l w fs root files) (Lints (cfg l)))
        /\ out = (concat (map data (received s)), None))
    /\ (exists sched', Run l w fs root files (sched ++ sched') <> None)
    /\ (returned s = None -> exists t s', step t s = Some s')
    /\ length sched <= budget (spawn l w fs root files).
Proof.
  intros Hgood sched s Hexec.
  pose proof (reachable_invariant _ _ _ _ _ _ _ Hexec) as Hinv.
  split; [|split; [|split]].
  - intros out. unfold Run. rewrite Hexec. intros Hout.
    destruct Hinv as [Hcap Hgs Hok Hall Hord Hdr Hret].
    simpl in Hall. rewrite (pending_all_succeed _ _ _ _ _ _ Hgood) in Hall.
    destruct (Hret out Hout)
      as [(oks & bad & e & Hrec & _ & Hbad & _)|(Hsucc & Hlen & ->)].
    + exfalso.
      assert (bad ∈ map (outcome l w fs root files) (Lints (cfg l))) as Hin.
      { rewrite <- Hall. apply elem_of_app. left.
        unfold history. rewrite Hrec. apply elem_of_app. left.
        apply elem_of_app. right. left. }
      apply list_elem_of_fmap in Hin as (val & -> & Hin).
      rewrite (Hgood val Hin) in Hbad. done.
    + split; [|done].
      pose proof (Permutation_length Hall) as Hl.
      unfold history in Hl. rewrite !length_app, length_map in Hl.
      assert (chan s = []) as Ec by (apply length_zero_iff_nil; lia).
      assert (pending (goroutines s) = []) as Ep
          by (apply length_zero_iff_nil; lia).
      unfold history in Hall. rewrite Ec, Ep, !app_nil_r in Hall. done.
  - destruct (invariant_returns _ _ _ Hinv) as (sched' & s' & He & Hr).
    exists sched'. unfold Run. rewrite exec_app, Hexec, He. done.
  - intros Hnone. by eapply invariant_progress.
  - apply exec_budget in Hexec. lia.
Qed.

(** After a failure the goroutine sends again: its first result is the
    error, and at least one more result follows. *)
Lemma task_sends_more_after_failure l w fs root files val :
  err (outcome l w fs root files val) <> None ->
  exists second more,
    sends (task l w fs root files val)
    = outcome l w fs root files val :: second :: more.
Proof.
  intros Hfail.
  destruct (decide (filter l (config.Filter_ val) files = [])) as [Hf|Hf].
  { exfalso. apply Hfail. unfold outcome. by rewrite Hf. }
  rewrite (task_sends_selected l w fs root files val Hf).
  unfold outcome in *.
  set (f := filter l (config.Filter_ val) files) in *.
  assert (Nat.eqb (length f) 0 = false) as E
      by (destruct f; [done | reflexivity]).
  rewrite E in *. cbn [negb] in *.
  destruct (marshal l fs root f).2.2 as [e|]; simpl.
  - destruct (routine l w _ _ _).2.2; simpl; eauto.
  - destruct (routine l w _ _ _).2.2; simpl; [eauto | done].
Qed.

(** A goroutine sends exactly its outcome if and only if the engine
    succeeded. *)
Lemma task_sends_once_iff_success l w fs root files val :
  sends (task l w fs root files val) = [outcome l w fs root files val]
  <-> err (outcome l w fs root files val) = None.
Proof.
  split.
  - intros Hone.
    destruct (err (outcome l w fs root files val)) as [e|] eqn:Ee; [|done].
    destruct (task_sends_more_after_failure l w fs root files val)
      as (second & more & Hs); [by rewrite Ee |].
    rewrite Hs in Hone. discriminate.
  - intros Hok.
    destruct (task_sends_outcome_first l w fs root files val)
      as (more & -> & Hmore).
    by rewrite (Hmore Hok).
Qed.

(** C10: with no engine configured, [Run] starts no goroutine, and under
    every schedule nothing is opened, dialled or called and nothing is
    sent; the one move that can be made is the return of the empty
    finding list with no error. *)
Theorem Run_without_engines w fs root files sched :
  let l := {| cfg := {| Lints := [] |} |} in
  goroutines (spawn l w fs root files) = []
  /\ Run l w fs root files [Main] = Some ([], None)
  /\ match exec sched (spawn l w fs root files) with
     | Some s =>
         effects s = [] /\ chan s = []
         /\ (sched = [] /\ returned s = None
             \/ sched = [Main] /\ returned s = Some ([], None))
     | None => True
     end.
Proof.
  split; [done |]. split; [done |].
  destruct sched as [|t sched]; simpl; [by eauto |].
  destruct t as [i|]; simpl; [done |].
  destruct sched as [|t sched]; simpl; [by eauto |].
  by destruct t as [i|].
Qed.
End Dispatch.

(** ** The dispatch engine in the concrete setting *)

Section DispatchExamples.
Import lint scenario.
#[local] Existing Instances names json.

Example filter_go_example :
  filter both (only ".go")
         ["a.go.base64"; "b.txt"; "c.go"; "patch.base64"; "dir.go/readme"]
  = ["a.go.base64"; "c.go"].
Proof. reflexivity. Qed.

Lemma both_succeed val :
  val ∈ Lints (cfg both) -> err (outcome both engines staged "/r" files val) = None.
Proof.
  intros Hin. simpl in Hin.
  apply elem_of_cons in Hin as [->|Hin]; [by vm_compute |].
  apply list_elem_of_singleton in Hin as ->. by vm_compute.
Qed.

Lemma empty_selection_short_circuit_witness :
  (forall name, name ∈ ["a.go"] ->
     selecting_extension name
     ∉ config.Extension (config.Include_ (config.Filter_ txt_engine)))
  /\ task both engines staged "/r" ["a.go"] txt_engine
     = [EvResult {| data := []; err := None |}]
  /\ outcome both engines staged "/r" ["a.go"] txt_engine
     = {| data := []; err := None |}.
Proof.
  assert (forall name, name ∈ ["a.go"] ->
            selecting_extension name
            ∉ config.Extension (config.Include_ (config.Filter_ txt_engine)))
    as Hnone.
  { intros name Hin. apply list_elem_of_singleton in Hin as ->.
    vm_compute. intros Hin. apply list_elem_of_singleton in Hin.
    discriminate. }
  split; [exact Hnone |].
  exact (empty_selection_short_circuit both engines staged "/r" ["a.go"]
                                       txt_engine Hnone).
Defined.

Lemma Run_fails_fast_witness :
  (exists val, val ∈ Lints (cfg one_down)
               /\ err (outcome one_down engines staged "/r" files val) <> None)
  /\ exec down_first (spawn one_down engines staged "/r" files)
     = Some down_first_state
  /\ Run one_down engines staged "/r" files down_first = Some ([], Some refused)
  /\ (forall out,
         Run one_down engines staged "/r" files down_first = Some out ->
         exists oks bad e,
           received down_first_state = oks ++ [bad]
           /\ Forall succeeded oks
           /\ err bad = Some e
           /\ bad ∈ pending (goroutines (spawn one_down engines staged "/r" files))
           /\ out = ([], Some e)).
Proof.
  assert (exists val, val ∈ Lints (cfg one_down)
                      /\ err (outcome one_down engines staged "/r" files val)
                         <> None) as Hfail.
  { exists down_engine. split; [right; left | vm_compute; discriminate]. }
  assert (exec down_first (spawn one_down engines staged "/r" files)
          = Some down_first_state) as Hexec by (vm_compute; reflexivity).
  split; [exact Hfail |].
  split; [exact Hexec |].
  split; [vm_compute; reflexivity |].
  exact (proj1 (Run_fails_fast one_down engines staged "/r" files
                               Hfail down_first down_first_state Hexec)).
Defined.

Lemma Run_concatenates_in_arrival_order_witness :
  (forall val, val ∈ Lints (cfg both) ->
               err (outcome both engines staged "/r" files val) = None)
  /\ exec txt_first (spawn both engines staged "/r" files)
     = Some txt_first_state
  /\ Run both engines staged "/r" files txt_first = Some ([spell; golint], None)
  /\ (forall out,
         Run both engines staged "/r" files txt_first = Some out ->
         Permutation (received txt_first_state)
                     (map (outcome both engines staged "/r" files)
                          (Lints (cfg both)))
         /\ out = (concat (map data (received txt_first_state)), None)).
Proof.
  assert (forall val, val ∈ Lints (cfg both) ->
            err (outcome both engines staged "/r" files val) = None) as Hgood.
  { intros val Hin. simpl in Hin.
    apply elem_of_cons in Hin as [->|Hin]; [vm_compute; reflexivity |].
    apply list_elem_of_singleton in Hin as ->. vm_compute. reflexivity. }
  assert (exec txt_first (spawn both engines staged "/r" files)
          = Some txt_first_state) as Hexec by (vm_compute; reflexivity).
  split; [exact Hgood |].
  split; [exact Hexec |].
  split; [vm_compute; reflexivity |].
  exact (proj1 (Run_concatenates_in_arrival_order
                  both engines staged "/r" files Hgood
                  txt_first txt_first_state Hexec)).
Defined.

(** C3, as stated, fails: both engines succeed, the configuration lists
    the Go engine first, and under the schedule [txt_first] the findings of
    the text engine come first in what [Run] returns. *)
Lemma Run_configuration_order_counterexample :
  (forall val, val ∈ Lints (cfg both) ->
               err (outcome both engines staged "/r" files val) = None)
  /\ concat (map (fun val => data (outcome both engines staged "/r" files val))
                 (Lints (cfg both)))
     = [golint; spell]
  /\ Run both engines staged "/r" files txt_first = Some ([spell; golint], None)
  /\ [spell; golint] <> [golint; spell].
Proof.
  split; [exact both_succeed |].
  split; [by vm_compute |].
  split; [by vm_compute |].
  discriminate.
Qed.

(** C2 at two inputs where the staged file cannot be read.  With the Go
    engine the goroutine sends the marshal error and then the result of
    the call it still makes, with an empty request.  With the engine that
    is down it sends three results; on the channel of capacity one, after
    [Run] has returned the first error, the second error fills the buffer
    and the goroutine stays blocked on its third send. *)
Theorem task_sends_again_after_marshal_failure :
  sends (task (linter [go_engine]) engines ∅ "/r" ["a.go"] go_engine)
  = [{| data := []; err := Some unreadable |};
     {| data := [golint]; err := None |}]
  /\ task (linter [go_engine]) engines ∅ "/r" ["a.go"] go_engine
     = [EvOpen "/r/a.go";
        EvResult {| data := []; err := Some unreadable |};
        EvDial "go:1"; EvSendLint "go:1" "";
        EvResult {| data := [golint]; err := None |}]
  /\ sends (task alone engines ∅ "/r" ["a.go"] down_engine)
     = [{| data := []; err := Some unreadable |};
        {| data := []; err := Some refused |};
        {| data := []; err := None |}]
  /\ capacity (spawn alone engines ∅ "/r" ["a.go"]) = 1
  /\ exec alone_run (spawn alone engines ∅ "/r" ["a.go"]) = Some alone_state
  /\ step (Goroutine 0) alone_state = None
  /\ step Main alone_state = None.
Proof. repeat split; by vm_compute. Qed.
End DispatchExamples.

(** ** Decoding the replies of the review system *)

Section Decode.
Context `{!Json}.
Import review.

Lemma substring_whole (s : string) : substring 0 (String.length s) s = s.
Proof. induction s as [|c s IH]; simpl; [done | by rewrite IH]. Qed.

Lemma length_append (s1 s2 : string) :
  String.length (s1 +:+ s2) = String.length s1 + String.length s2.
Proof. induction s1 as [|c s1 IH]; simpl; [done | by rewrite IH]. Qed.

Lemma substring_after (s1 s2 : string) :
  substring (String.length s1) (String.length s2) (s1 +:+ s2) = s2.
Proof. induction s1 as [|c s1 IH]; simpl; [apply substring_whole | done]. Qed.

(** [data[4:]] of four bytes followed by [body] is [body]. *)
Lemma slice_from_magic (magic body : string) :
  String.length magic = 4 -> slice_from (magic +:+ body) 4 = Ok body.
Proof.
  intros Hlen. unfold slice_from. rewrite length_append, Hlen.
  assert (Nat.ltb (4 + String.length body) 4 = false) as ->
      by (apply Nat.ltb_ge; lia).
  replace (4 + String.length body - 4) with (String.length body) by lia.
  rewrite <- Hlen. by rewrite substring_after.
Qed.

Lemma slice_from_short (data : string) (n : nat) :
  String.length data < n -> slice_from data n = Fault "slice bounds out of range".
Proof.
  intros Hlt. unfold slice_from.
  by assert (Nat.ltb (String.length data) n = true) as ->
      by (apply Nat.ltb_lt; lia).
Qed.

(** The first four bytes of a reply are dropped and the rest is handed
    to the decoder.  If the decoder rejects the rest, the result is the
    decode error; if it yields the empty list, the result is the no-match
    error; otherwise the result is the first element of the list.  A value
    is returned in that last case only.  The single-object decoding strips
    the same four bytes and returns the decoder's error or its object. *)
Theorem unmarshalList_strips_and_decodes (g : gerrit) (magic body : string) :
  String.length magic = 4 ->
  unmarshalList g (magic +:+ body)
  = match Unmarshal_objects body with
    | (_, Some e) => Err (errors.Wrap e "failed to unmarshal")
    | ([], None) => Err (errors.New "failed to match")
    | (first :: _, None) => Ok first
    end
  /\ unmarshal g (magic +:+ body)
     = match Unmarshal_object body with
       | (_, Some e) => Err (errors.Wrap e "failed to unmarshal")
       | (buf, None) => Ok buf
       end.
Proof.
  intros Hlen. unfold unmarshalList, unmarshal.
  rewrite (slice_from_magic _ _ Hlen). simpl. split.
  - destruct (Unmarshal_objects body) as [[|first rest] [e|]]; done.
  - destruct (Unmarshal_object body) as [buf [e|]]; done.
Qed.

(** C9: on a body shorter than four bytes both decoding functions fault
    at the slice expression; neither returns an error value. *)
Theorem decode_faults_on_short_body (g : gerrit) (data : string) :
  String.length data < 4 ->
  unmarshal g data = Fault "slice bounds out of range"
  /\ unmarshalList g data = Fault "slice bounds out of range".
Proof.
  intros Hlt. unfold unmarshal, unmarshalList.
  rewrite (slice_from_short _ _ Hlt). done.
Qed.

(** With four bytes or more there is no fault at the slice expression. *)
Lemma decode_total_from_four_bytes (g : gerrit) (data : string) :
  4 <= String.length data ->
  (forall why, unmarshal g data <> Fault why)
  /\ (forall why, unmarshalList g data <> Fault why).
Proof.
  intros Hle. unfold unmarshal, unmarshalList, slice_from.
  assert (Nat.ltb (String.length data) 4 = false) as ->
      by (apply Nat.ltb_ge; lia).
  simpl. split; intros why.
  - destruct (Unmarshal_object _) as [buf [e|]]; done.
  - destruct (Unmarshal_objects _) as [[|first rest] [e|]]; done.
Qed.
End Decode.

(** ** Decoding by the shape of the document *)

Section DecodeByShape.
Context `{!Json} `{!JsonSyntax} `{!JsonDecoding}.
Import review encoding_json.

Lemma into_maps_values (l : list value) : (into_maps l).1 = map as_map l.
Proof.
  induction l as [|v l IH]; [done |].
  cbn [into_maps]. destruct (into_maps l) as [ms e']. simpl in IH.
  destruct v; simpl; rewrite ?IH; try done.
  by rewrite (right_id_L ∅ (∪)).
Qed.

Lemma into_maps_error (l : list value) :
  (into_maps l).2
  = option_map (fun v => type_error v "map[string]interface {}") (offender l).
Proof.
  unfold offender. induction l as [|v l IH]; [done |].
  cbn [into_maps]. destruct (into_maps l) as [ms e']. simpl in IH.
  destruct v; simpl; done.
Qed.

Lemma unmarshalList_by_shape (g : gerrit) (magic body : string) :
  String.length magic = 4 ->
  unmarshalList g (magic +:+ body)
  = match Parse body with
    | inr e => Err (errors.Wrap e "failed to unmarshal")
    | inl VNil => Err (errors.New "failed to match")
    | inl (VSlice l) =>
        match offender l with
        | Some v =>
            Err (errors.Wrap (type_error v "map[string]interface {}")
                             "failed to unmarshal")
        | None =>
            match l with
            | [] => Err (errors.New "failed to match")
            | first :: _ => Ok (as_map first)
            end
        end
    | inl v =>
        Err (errors.Wrap (type_error v "[]map[string]interface {}")
                         "failed to unmarshal")
    end.
Proof.
  intros Hlen.
  rewrite (proj1 (unmarshalList_strips_and_decodes g magic body Hlen)).
  rewrite Unmarshal_objects_is_typed.
  destruct (Parse body) as [v|e]; [|done].
  destruct v as [| | | |l|]; try done.
  unfold into_slice.
  pose proof (into_maps_values l) as Hv.
  pose proof (into_maps_error l) as He.
  destruct (into_maps l) as [ms e]. simpl in Hv, He. subst ms e.
  destruct (offender l) as [v|]; simpl.
  - by destruct (map as_map l).
  - by destruct l.
Qed.

Lemma unmarshal_by_shape (g : gerrit) (magic body : string) :
  String.length magic = 4 ->
  unmarshal g (magic +:+ body)
  = match Parse body with
    | inr e => Err (errors.Wrap e "failed to unmarshal")
    | inl VNil => Ok ∅
    | inl (VMap m) => Ok m
    | inl v =>
        Err (errors.Wrap (type_error v "map[string]interface {}")
                         "failed to unmarshal")
    end.
Proof.
  intros Hlen.
  rewrite (proj2 (unmarshalList_strips_and_decodes g magic body Hlen)).
  rewrite Unmarshal_object_is_typed.
  destruct (Parse body) as [v|e]; [|done].
  destruct v; simpl; try done.
  by rewrite (right_id_L ∅ (∪)).
Qed.

(** C8, as the code has it: the first four bytes of a reply are dropped
    and the rest is decoded.  A rest that is not a JSON document, or is a
    document other than an array or null, or is an array with an element
    that is neither an object nor null, yields the decode error.  Null
    and the empty array yield the no-match error.  An array of objects
    and nulls yields its first element, and no error: the object if it is
    one, and the empty map if it is null; so a first element that is null
    or an empty object gives an empty result without any error.  The
    single-object decoding strips the same four bytes, yields the decode
    error for a rest that is not a document or is neither object nor
    null, the object for an object, and the empty map, without error,
    for null. *)
Theorem unmarshalList_decodes_by_shape (g : gerrit) (magic body : string) :
  String.length magic = 4 ->
  unmarshalList g (magic +:+ body)
  = match Parse body with
    | inr e => Err (errors.Wrap e "failed to unmarshal")
    | inl VNil => Err (errors.New "failed to match")
    | inl (VSlice l) =>
        match offender l with
        | Some v =>
            Err (errors.Wrap (type_error v "map[string]interface {}")
                             "failed to unmarshal")
        | None =>
            match l with
            | [] => Err (errors.New "failed to match")
            | first :: _ => Ok (as_map first)
            end
        end
    | inl v =>
        Err (errors.Wrap (type_error v "[]map[string]interface {}")
                         "failed to unmarshal")
    end
  /\ unmarshal g (magic +:+ body)
     = match Parse body with
       | inr e => Err (errors.Wrap e "failed to unmarshal")
       | inl VNil => Ok ∅
       | inl (VMap m) => Ok m
       | inl v =>
           Err (errors.Wrap (type_error v "map[string]interface {}")
                            "failed to unmarshal")
       end.
Proof.
  intros Hlen. split;
    [by apply unmarshalList_by_shape | by apply unmarshal_by_shape].
Qed.
End DecodeByShape.

(** ** The vote *)

Section VoteBranches.
Context `{!Json} `{!Url}.
Import proto review.

Lemma comments_on_snoc (data : list Format) (item : Format) (file : string) :
  comments_on (data ++ [item]) file
  = if String.eqb (File item) file
    then Some (VSlice (map comment
                 (List.filter (fun it => String.eqb (File it) file) data
                  ++ [item])))
    else comments_on data file.
Proof.
  unfold comments_on. rewrite List.filter_app. simpl.
  destruct (String.eqb (File item) file).
  - by destruct (List.filter _ data).
  - by rewrite app_nil_r.
Qed.

(** The loop groups by file: started on the comments of the findings
    [seen], it ends with the comments of [seen ++ rest], and no type
    assertion in it faults. *)
Lemma Vote_helper_range_groups (rest seen : list Format)
      (c : gmap string value) :
  (forall file, c !! file = comments_on seen file) ->
  exists c', Vote_helper_range rest c = Ok c'
             /\ forall file, c' !! file = comments_on (seen ++ rest) file.
Proof.
  revert seen c. induction rest as [|item rest IH]; intros seen c Hc.
  - exists c. split; [done |]. by rewrite app_nil_r.
  - cbn [Vote_helper_range]. fold (comment item).
    replace (seen ++ item :: rest) with ((seen ++ [item]) ++ rest)
      by (by rewrite <- app_assoc).
    pose proof (Hc (File item)) as Hitem. unfold comments_on in Hitem.
    destruct (List.filter (fun it => String.eqb (File it) (File item)) seen)
      as [|it items] eqn:Ef; rewrite Hitem.
    + apply IH. intros file. rewrite comments_on_snoc.
      destruct (String.eqb_spec (File item) file) as [<-|Hne].
      * rewrite lookup_insert_eq, Ef. done.
      * rewrite lookup_insert_ne by done. apply Hc.
    + simpl. apply IH. intros file. rewrite comments_on_snoc.
      destruct (String.eqb_spec (File item) file) as [<-|Hne].
      * rewrite lookup_insert_eq, Ef, map_app. done.
      * rewrite lookup_insert_ne by done. apply Hc.
Qed.

Lemma Vote_helper_branches (g : gerrit) (data : list Format) :
  let vote := config.Vote_ (r g) in
  exists comments value_,
    Vote_helper g data
    = Ok (comments, {[ config.Label vote := VString value_ ]},
          config.Message vote)
    /\ (data = [] -> comments = VNil /\ value_ = config.Approval vote)
    /\ (data <> [] ->
        value_ = config.Disapproval vote
        /\ exists c, comments = VMap c
                     /\ forall file, c !! file = comments_on data file).
Proof.
  intros vote. unfold Vote_helper. fold vote.
  destruct data as [|item rest].
  - exists VNil, (config.Approval vote). done.
  - destruct (Vote_helper_range_groups (item :: rest) [] ∅) as (c & Hc & Hg).
    { intros file. by rewrite lookup_empty. }
    exists (VMap c), (config.Disapproval vote).
    cbn [length Nat.eqb]. rewrite Hc. simpl.
    repeat split; try done. exists c. done.
Qed.

(** Once the commit is resolved to a change and its current revision,
    [Vote] calls [post] on the review URL of that revision.  Its
    message is the configured message.  With no finding, the label has
    the approval value and there are no comments (the nil map).  With
    findings, the label has the disapproval value, and the comments map
    holds, for each file that has findings and for no other key, the line
    and message of that file's findings in the order of the input. *)
Theorem Vote_branches (g : gerrit) (w : World) (commit : string)
        (data : list Format) (reply : string)
        (ret revisions current : gmap string value) (id : string)
        (change revision : Z) :
  get g w (urlQuery g ("commit:" +:+ commit) ["CURRENT_REVISION"] 0)
  = Ok reply ->
  unmarshalList g reply = Ok ret ->
  ret !! "revisions" = Some (VMap revisions) ->
  ret !! "current_revision" = Some (VString id) ->
  revisions !! id = Some (VMap current) ->
  ret !! "_number" = Some (VNumber change) ->
  current !! "_number" = Some (VNumber revision) ->
  let vote := config.Vote_ (r g) in
  exists comments value_,
    Vote g w commit data
    = (let '(posted, x) :=
         post g w (urlReview g change revision)
              {[ "comments" := comments;
                 "labels" := VMap {[ config.Label vote := VString value_ ]};
                 "message" := VString (config.Message vote) ]} in
       (posted, errors.wrapped x "failed to review"))
    /\ (data = [] -> comments = VNil /\ value_ = config.Approval vote)
    /\ (data <> [] ->
        value_ = config.Disapproval vote
        /\ exists c, comments = VMap c
                     /\ forall file, c !! file = comments_on data file).
Proof.
  intros Hget Hlist Hrevs Hid Hcur Hchange Hrev vote.
  destruct (Vote_helper_branches g data) as (comments & value_ & Hh & Hspec).
  exists comments, value_. split; [|exact Hspec].
  unfold Vote, Vote_review.
  rewrite Hget. simpl. rewrite Hlist. simpl.
  rewrite Hrevs. simpl. rewrite Hid. simpl. rewrite Hcur. simpl.
  rewrite Hh. simpl. rewrite Hchange. simpl. rewrite Hrev. simpl.
  done.
Qed.
End VoteBranches.

(** ** What the vote sends *)

Section VotePosts.
Context `{!Json} `{!Url}.
Import proto review.

(** When the body encodes and the request can be built, [post] hands one
    request to the client, and its result is what the client's answer
    gives. *)
Lemma post_sends (g : gerrit) (w : World) (_url payload : string)
      (data : gmap string value) :
  Marshal_value data = (payload, None) ->
  NewRequest w "POST" _url = None ->
  post g w _url data
  = ([request_of_post g _url payload],
     posted_of (Do w (request_of_post g _url payload))).
Proof.
  intros Hm Hn. unfold post, posted_of. rewrite Hm, Hn.
  fold (request_of_post g _url payload).
  destruct (Do w (request_of_post g _url payload)) as [rsp [e|]]; [done |].
  simpl. destruct (negb (Z.eqb (StatusCode rsp) 200)); [done |].
  by destruct (Body rsp).2.
Qed.

(** What a successful resolution in [Vote] has gone through. *)
Lemma Vote_review_success (g : gerrit) (w : World) (commit : string)
      (data : list Format) (_url : string) (buf : gmap string value) :
  Vote_review g w commit data = Ok (_url, buf) ->
  exists reply ret revisions id current change revision comments labels,
    get g w (urlQuery g ("commit:" +:+ commit) ["CURRENT_REVISION"] 0)
    = Ok reply
    /\ unmarshalList g reply = Ok ret
    /\ ret !! "revisions" = Some (VMap revisions)
    /\ ret !! "current_revision" = Some (VString id)
    /\ revisions !! id = Some (VMap current)
    /\ ret !! "_number" = Some (VNumber change)
    /\ current !! "_number" = Some (VNumber revision)
    /\ Vote_helper g data
       = Ok (comments, labels, config.Message (config.Vote_ (r g)))
    /\ _url = urlReview g change revision
    /\ buf = {[ "comments" := comments;
                "labels" := VMap labels;
                "message" := VString (config.Message (config.Vote_ (r g))) ]}.
Proof.
  unfold Vote_review.
  destruct (get g w _) as [reply|e|why] eqn:Hq; simpl; [|done|done].
  destruct (unmarshalList g reply) as [ret|e|why] eqn:Hu; simpl; [|done|done].
  destruct (ret !! "revisions") as [[| | | | |revisions]|] eqn:E1; simpl;
    try done.
  destruct (ret !! "current_revision") as [[| | |id| |]|] eqn:E2; simpl;
    try done.
  destruct (revisions !! id) as [[| | | | |current]|] eqn:E3; simpl; try done.
  destruct (Vote_helper_branches g data) as (comments & value_ & Hh & _).
  rewrite Hh. simpl.
  destruct (ret !! "_number") as [[| |change| | |]|] eqn:E4; simpl; try done.
  destruct (current !! "_number") as [[| |revision| | |]|] eqn:E5; simpl;
    try done.
  intros [= <- <-].
  exists reply, ret, revisions, id, current, change, revision, comments,
    {[ config.Label (config.Vote_ (r g)) := VString value_ ]}.
  done.
Qed.

(** The message of the body is the configured message, whatever the
    findings. *)
Lemma Vote_review_message (g : gerrit) (w : World) (commit : string)
      (data : list Format) (_url : string) (buf : gmap string value) :
  Vote_review g w commit data = Ok (_url, buf) ->
  buf !! "message" = Some (VString (config.Message (config.Vote_ (r g)))).
Proof.
  intros Hr.
  destruct (Vote_review_success _ _ _ _ _ _ Hr)
    as (? & ? & ? & ? & ? & ? & ? & comments & labels & _ & _ & _ & _ & _
        & _ & _ & _ & _ & ->).
  done.
Qed.


End VotePosts.

(** ** Staging and reading back *)

Section Staging.
Context `{!proto.Names} `{!Json} `{!Url}.
Import proto.

(** Where [Fetch] writes: when its closure [helper] succeeds, [data] is
    the content of the file named [file] inside [dir]. *)
Lemma Fetch_helper_writes (dir file data : string) (fs fs' : os.FS) :
  review.Fetch_helper dir file data fs = (fs', Ok tt) ->
  fs' !! filepath.Join [dir; file] = Some (os.File data).
Proof.
  unfold review.Fetch_helper.
  destruct (os.MkdirAll fs dir) as [fs1 [e|]]; [done |].
  unfold os.Create_WriteString.
  destruct (os.is_dir fs1 (filepath.Join [dir; file])); [done |].
  destruct (os.is_dir fs1 (filepath.Dir (filepath.Join [dir; file])));
    [|done].
  simpl. intros [= <-]. apply lookup_insert_eq.
Qed.

(** Where [marshal] reads: a single name [val] is opened at [root] joined
    with [val], and what is marshalled is the content found there. *)
Lemma marshal_reads_joined (l : lint.lint) (fs : os.FS) (root val : string)
      (content : string) :
  val <> "" ->
  fs !! filepath.Join [root; val] = Some (os.File content) ->
  lint.marshal l fs root [val]
  = ([lint.EvOpen (filepath.Join [root; val])],
     match Marshal_files {[ val := content ]} with
     | (_, Some e) => ("", Some (errors.Wrap e "failed to marshal"))
     | (ret, None) => (ret, None)
     end).
Proof.
  intros Hval Hfile. unfold lint.marshal. cbn [lint.marshal_range].
  apply String.eqb_neq in Hval. rewrite Hval.
  unfold lint.marshal_helper, os.Open. rewrite Hfile. cbn [os.ReadAll].
  rewrite insert_empty, map_size_singleton. cbn [Nat.eqb].
  by destruct (Marshal_files _) as [ret [e|]].
Qed.

(** A name that is not staged at [root] joined with it makes [marshal]
    fail. *)
Lemma marshal_fails_elsewhere (l : lint.lint) (fs : os.FS) (root val : string) :
  val <> "" ->
  fs !! filepath.Join [root; val] = None ->
  lint.marshal l fs root [val]
  = ([lint.EvOpen (filepath.Join [root; val])],
     ("", Some (errors.Wrap
                  (errors.Wrap
                     ("open " +:+ filepath.Join [root; val]
                      +:+ ": no such file or directory")
                     "failed to open")
                  "failed to read"))).
Proof.
  intros Hval Hfile. unfold lint.marshal. cbn [lint.marshal_range].
  apply String.eqb_neq in Hval. rewrite Hval.
  unfold lint.marshal_helper, os.Open. rewrite Hfile.
  rewrite insert_empty, map_size_singleton. done.
Qed.
End Staging.

(** ** The adapter in the concrete setting *)

Section ReviewExamples.
Import proto review scenario.
#[local] Existing Instances names json url.

(** C1 at a change with one file: [Fetch] stages the content of [a.go]
    under the change and revision directories, with the content suffix,
    and returns the date-stamped root and the unsuffixed name; [marshal],
    given what [Fetch] returned, opens [a.go] directly under that root,
    where nothing is staged, and fails.  The patch is missed in the same
    way. *)
Theorem Fetch_then_marshal_misses_staged_content :
  Fetch adapter world "c0ffee" ∅
  = (fetched, Ok (staging_root, ["patch.base64"; "a.go"]))
  /\ fetched
     = {[ "/" := os.Directory;
          "/w" := os.Directory;
          "/w/gerrit-2020-01-02" := os.Directory;
          "/w/gerrit-2020-01-02/1" := os.Directory;
          "/w/gerrit-2020-01-02/1/abc" := os.Directory;
          "/w/gerrit-2020-01-02/1/abc/patch.base64" := os.File "cGF0Y2g=";
          "/w/gerrit-2020-01-02/1/abc/a.go.base64" := os.File "cGFja2FnZSBh" ]}
  /\ lint.filter (linter [go_engine]) (only ".go") ["patch.base64"; "a.go"]
     = ["a.go"]
  /\ lint.marshal (linter [go_engine]) fetched staging_root ["a.go"]
     = ([lint.EvOpen "/w/gerrit-2020-01-02/a.go"], ("", Some not_found))
  /\ (lint.marshal (linter [go_engine]) fetched staging_root
                   ["patch.base64"]).2.2
     <> None.
Proof. repeat split; by vm_compute. Qed.

Lemma unmarshalList_strips_and_decodes_witness :
  String.length ")]}'" = 4
  /\ unmarshalList adapter (")]}'" +:+ "[{change}]") = Ok change
  /\ unmarshalList adapter (")]}'" +:+ "[]") = Err "failed to match"
  /\ unmarshalList adapter (")]}'" +:+ "{change}")
     = Err "failed to unmarshal: invalid character".
Proof.
  split; [reflexivity |].
  split; [|split].
  - exact (proj1 (unmarshalList_strips_and_decodes
                    adapter ")]}'" "[{change}]" eq_refl)).
  - exact (proj1 (unmarshalList_strips_and_decodes
                    adapter ")]}'" "[]" eq_refl)).
  - exact (proj1 (unmarshalList_strips_and_decodes
                    adapter ")]}'" "{change}" eq_refl)).
Defined.

Lemma decode_faults_on_short_body_witness :
  String.length ")]}" < 4
  /\ unmarshal adapter ")]}" = Fault "slice bounds out of range"
  /\ unmarshalList adapter ")]}" = Fault "slice bounds out of range".
Proof.
  assert (String.length ")]}" < 4) as Hlt by (simpl; lia).
  split; [exact Hlt |].
  exact (decode_faults_on_short_body adapter ")]}" Hlt).
Defined.

(** A query answered with three bytes makes [Fetch] and [Vote] fault. *)
Example Fetch_and_Vote_fault_on_short_reply :
  Fetch adapter short_world "c0ffee" ∅
  = (∅, Fault "slice bounds out of range")
  /\ Vote adapter short_world "c0ffee" [golint]
     = ([], Fault "slice bounds out of range").
Proof. split; by vm_compute. Qed.



(** The two branches of [Vote] on the change of the setting. *)
Example Vote_examples :
  Vote_review adapter world "c0ffee" []
  = Ok ("http://gerrit:8080/changes/1/revisions/2/review",
        {[ "comments" := VNil;
           "labels" := VMap {[ "Code-Review" := VString "+1" ]};
           "message" := VString "Voting by lintflow" ]})
  /\ Vote_review adapter world "c0ffee" [golint; spell; golint]
     = Ok ("http://gerrit:8080/changes/1/revisions/2/review",
           {[ "comments" :=
                VMap {[ "a.go" := VSlice [comment golint; comment golint];
                        "b.txt" := VSlice [comment spell] ]};
              "labels" := VMap {[ "Code-Review" := VString "-1" ]};
              "message" := VString "Voting by lintflow" ]})
  /\ (Vote adapter world "c0ffee" []).1
     = [{| Method := "POST";
           URL := "http://gerrit:8080/changes/1/revisions/2/review";
           BasicAuth := None;
           ContentType := Some "application/json;charset=utf-8";
           Payload := "{review}" |}].
Proof. repeat split; by vm_compute. Qed.
End ReviewExamples.

(** ** Decoding in the concrete setting *)

Section DecodeExamples.
Import review scenario encoding_json.

Lemma typed_decoding : @JsonDecoding typed documents.
Proof. split; intros body; reflexivity. Defined.

Lemma unmarshalList_decodes_by_shape_witness :
  String.length ")]}'" = 4
  /\ @unmarshalList typed adapter (")]}'" +:+ "[1]")
     = Err ("failed to unmarshal: json: cannot unmarshal number"
            +:+ " into Go value of type map[string]interface {}")
  /\ @unmarshalList typed adapter (")]}'" +:+ "[]") = Err "failed to match"
  /\ @unmarshal typed adapter (")]}'" +:+ "{}") = Ok ∅.
Proof.
  split; [reflexivity |].
  split; [|split].
  - exact (proj1 (@unmarshalList_decodes_by_shape
                    typed documents typed_decoding adapter ")]}'" "[1]"
                    eq_refl)).
  - exact (proj1 (@unmarshalList_decodes_by_shape
                    typed documents typed_decoding adapter ")]}'" "[]"
                    eq_refl)).
  - exact (proj2 (@unmarshalList_decodes_by_shape
                    typed documents typed_decoding adapter ")]}'" "{}"
                    eq_refl)).
Defined.

(** A reply whose rest is an array holding null, or an empty object, is
    not a list of changes; it is decoded without any error, to a change
    with no field.  So is, by the single-object decoding, a rest that is
    null. *)
Lemma unmarshalList_silent_empty_counterexample :
  @Parse documents "[null]" = inl (VSlice [VNil])
  /\ @unmarshalList typed adapter ")]}'[null]" = Ok ∅
  /\ @Parse documents "[{}]" = inl (VSlice [VMap ∅])
  /\ @unmarshalList typed adapter ")]}'[{}]" = Ok ∅
  /\ @Parse documents "null" = inl VNil
  /\ @unmarshal typed adapter ")]}'null" = Ok ∅.
Proof. repeat split; by vm_compute. Qed.
End DecodeExamples.

(** * Further properties *)

(** ** Selection and the content suffix *)

Section Selection.
Context `{!proto.Names}.
Import proto.

Lemma substring_before (s1 s2 : string) :
  substring 0 (String.length s1) (s1 +:+ s2) = s1.
Proof.
  induction s1 as [|c s1 IH]; simpl.
  - by destruct s2.
  - by rewrite IH.
Qed.

Lemma HasSuffix_append (s suffix : string) :
  strings.HasSuffix (s +:+ suffix) suffix = true.
Proof.
  unfold strings.HasSuffix. rewrite length_append.
  apply andb_true_iff. split.
  - apply Nat.leb_le. lia.
  - replace (String.length s + String.length suffix - String.length suffix)
      with (String.length s) by lia.
    rewrite substring_after. apply String.eqb_refl.
Qed.

Lemma TrimSuffix_append (s suffix : string) :
  strings.TrimSuffix (s +:+ suffix) suffix = s.
Proof.
  unfold strings.TrimSuffix. rewrite HasSuffix_append, length_append.
  replace (String.length s + String.length suffix - String.length suffix)
    with (String.length s) by lia.
  apply substring_before.
Qed.

Lemma selecting_extension_suffixed (name : string) :
  lint.selecting_extension (name +:+ Base64Content) = filepath.Ext name.
Proof. unfold lint.selecting_extension. by rewrite TrimSuffix_append. Qed.

(** X1: a name that carries the content suffix is selected by the
    extension of the name without it: the suffix that staging appends
    never hides a file from an engine, nor shows it to one. *)
Theorem filter_sees_through_content_suffix (l : lint.lint)
        (f : config.Filter) (name : string) :
  lint.filter l f [name +:+ Base64Content]
  = if decide (filepath.Ext name ∈ config.Extension (config.Include_ f))
    then [name +:+ Base64Content] else [].
Proof.
  rewrite lint_filter_is_filter, filter_cons, filter_nil.
  rewrite selecting_extension_suffixed. done.
Qed.

Lemma lint_filter_app l f (data1 data2 : list string) :
  lint.filter l f (data1 ++ data2)
  = lint.filter l f data1 ++ lint.filter l f data2.
Proof. rewrite !lint_filter_is_filter. apply filter_app. Qed.

Lemma lint_filter_idemp l f (data : list string) :
  lint.filter l f (lint.filter l f data) = lint.filter l f data.
Proof.
  rewrite !lint_filter_is_filter.
  induction data as [|val rest IH]; [done |].
  rewrite filter_cons. case_decide as Hd; [|exact IH].
  rewrite filter_cons, decide_True by done. by rewrite IH.
Qed.

(** X2: [filter] works name by name: the selection of a concatenation is
    the concatenation of the selections, and selecting again from a
    selection changes nothing. *)
Theorem filter_composes (l : lint.lint) (f : config.Filter)
        (data1 data2 : list string) :
  lint.filter l f (data1 ++ data2)
  = lint.filter l f data1 ++ lint.filter l f data2
  /\ lint.filter l f (lint.filter l f data1) = lint.filter l f data1.
Proof. split; [apply lint_filter_app | apply lint_filter_idemp]. Qed.
End Selection.

(** ** Marshalling the selected files *)

Section Marshal.
Context `{!proto.Names} `{!Json}.
Import lint.

Implicit Types (l : lint.lint) (fs : os.FS) (root : string)
         (data : list string) (buf : gmap string string).

Lemma marshal_helper_reads fs name :
  marshal_helper fs name
  = match fs !! name with
    | Some (os.File content) => (content, None)
    | Some os.Directory =>
        ("", Some (errors.Wrap ("read " +:+ name +:+ ": is a directory")
                               "failed to readall"))
    | None =>
        ("", Some (errors.Wrap
                     ("open " +:+ name +:+ ": no such file or directory")
                     "failed to open"))
    end.
Proof.
  unfold marshal_helper, os.Open.
  destruct (fs !! name) as [[content|]|]; done.
Qed.

(** Every file the loop opens is a name of the input under [root]. *)
Lemma marshal_range_opens fs root data buf ev :
  ev ∈ (marshal_range fs root data buf).2 ->
  exists val, val ∈ data /\ ev = EvOpen (filepath.Join [root; val]).
Proof.
  revert buf. induction data as [|val rest IH]; intros buf;
    cbn [marshal_range].
  - intros Hin. by apply elem_of_nil in Hin.
  - destruct (String.eqb val ""); [intros Hin; by apply elem_of_nil in Hin |].
    destruct (marshal_helper fs (filepath.Join [root; val])) as [c [e|]].
    + intros Hin. apply list_elem_of_singleton in Hin as ->.
      exists val. split; [left | done].
    + specialize (IH (<[val := c]> buf)).
      destruct (marshal_range fs root rest (<[val := c]> buf))
        as [[b e] evs].
      intros Hin. apply elem_of_cons in Hin as [->|Hin].
      * exists val. split; [left | done].
      * destruct (IH Hin) as (v & Hv & ->). exists v. split; [by right | done].
Qed.

(** When the loop ends without error, no name was empty and every name
    is a regular file under [root]. *)
Lemma marshal_range_success fs root data buf :
  (marshal_range fs root data buf).1.2 = None ->
  forall val, val ∈ data ->
    val <> ""
    /\ exists content,
        fs !! filepath.Join [root; val] = Some (os.File content).
Proof.
  revert buf. induction data as [|val rest IH]; intros buf;
    cbn [marshal_range].
  - intros _ v Hin. by apply elem_of_nil in Hin.
  - destruct (String.eqb_spec val "") as [->|Hne]; [done |].
    rewrite marshal_helper_reads.
    destruct (fs !! filepath.Join [root; val]) as [[content|]|] eqn:Hf;
      [|done|done].
    specialize (IH (<[val := content]> buf)).
    destruct (marshal_range fs root rest (<[val := content]> buf))
      as [[b e] evs].
    simpl in *. intros He v Hin.
    apply elem_of_cons in Hin as [->|Hin]; [eauto | by apply IH].
Qed.

(** The loop on names that are all staged: it reads each one, in order. *)
Lemma marshal_range_staged fs root data buf :
  (forall val, val ∈ data ->
     val <> ""
     /\ exists content,
         fs !! filepath.Join [root; val] = Some (os.File content)) ->
  marshal_range fs root data buf
  = (fold_left (fun b val => <[val := read_staged fs root val]> b) data buf,
     None,
     map (fun val => EvOpen (filepath.Join [root; val])) data).
Proof.
  revert buf. induction data as [|val rest IH]; intros buf Hgood;
    cbn [marshal_range]; [done |].
  destruct (Hgood val) as (Hne & content & Hf); [left |].
  apply String.eqb_neq in Hne. rewrite Hne.
  rewrite marshal_helper_reads, Hf.
  rewrite IH by (intros v Hv; apply Hgood; by right).
  assert (read_staged fs root val = content) as Hread
      by (unfold read_staged; by rewrite Hf).
  cbn [fold_left map]. by rewrite Hread.
Qed.

Lemma fold_insert_lookup fs root data buf name :
  fold_left (fun b val => <[val := read_staged fs root val]> b) data buf
  !! name
  = if decide (name ∈ data) then Some (read_staged fs root name)
    else buf !! name.
Proof.
  revert buf. induction data as [|val rest IH]; intros buf;
    cbn [fold_left].
  - rewrite decide_False; [done | apply not_elem_of_nil].
  - rewrite IH. destruct (decide (name ∈ rest)) as [Hin|Hnin].
    + rewrite decide_True; [done | by right].
    + destruct (decide (name = val)) as [->|Hne].
      * rewrite decide_True by left. apply lookup_insert_eq.
      * rewrite decide_False.
        -- by apply lookup_insert_ne.
        -- intros Hin. apply elem_of_cons in Hin as [?|?]; done.
Qed.

Lemma marshal_success_requires l fs root data :
  (marshal l fs root data).2.2 = None ->
  data <> []
  /\ forall val, val ∈ data ->
       val <> ""
       /\ exists content,
           fs !! filepath.Join [root; val] = Some (os.File content).
Proof.
  unfold marshal.
  pose proof (marshal_range_success fs root data ∅) as Hr.
  destruct (marshal_range fs root data ∅) as [[buf e] evs] eqn:E.
  simpl in Hr.
  destruct (Nat.eqb (size buf) 0) eqn:Hsz; [done |].
  destruct e as [e|]; [done |].
  intros _. split; [|by apply Hr].
  intros ->. cbn [marshal_range] in E. injection E as <- _.
  by rewrite map_size_empty in Hsz.
Qed.

Lemma marshal_of_staged l fs root data :
  data <> [] ->
  (forall val, val ∈ data ->
     val <> ""
     /\ exists content,
         fs !! filepath.Join [root; val] = Some (os.File content)) ->
  exists buf,
    (forall name,
        buf !! name
        = if decide (name ∈ data) then Some (read_staged fs root name)
          else None)
    /\ marshal l fs root data
       = (map (fun val => EvOpen (filepath.Join [root; val])) data,
          match Marshal_files buf with
          | (_, Some e) => ("", Some (errors.Wrap e "failed to marshal"))
          | (ret, None) => (ret, None)
          end).
Proof.
  intros Hne Hgood.
  exists (fold_left (fun b val => <[val := read_staged fs root val]> b)
                    data ∅).
  split.
  - intros name. rewrite fold_insert_lookup, lookup_empty. done.
  - unfold marshal. rewrite (marshal_range_staged _ _ _ _ Hgood).
    set (buf := fold_left _ data ∅).
    assert (size buf <> 0) as Hsz.
    { destruct data as [|val rest]; [done |].
      intros Hz. apply map_size_empty_iff in Hz.
      assert (buf !! val = None) as Hv by (by rewrite Hz, lookup_empty).
      unfold buf in Hv. rewrite fold_insert_lookup in Hv.
      rewrite decide_True in Hv by left. done. }
    apply Nat.eqb_neq in Hsz. rewrite Hsz.
    by destruct (Marshal_files buf) as [ret [e|]].
Qed.

(** X3: [marshal] succeeds only on a list that is not empty, holds no
    empty name, and whose names are all regular files under [root]: an
    empty selection, an empty name, a missing file or a directory in the
    place of a file each make it fail. *)
Theorem marshal_succeeds_only_on_staged_names l fs root data :
  (marshal l fs root data).2.2 = None ->
  data <> []
  /\ ("" ∉ data)
  /\ forall val, val ∈ data ->
       exists content,
         fs !! filepath.Join [root; val] = Some (os.File content).
Proof.
  intros Hok. destruct (marshal_success_requires _ _ _ _ Hok) as [Hne Hall].
  split; [done |]. split.
  - intros Hin. by destruct (Hall "" Hin).
  - intros val Hin. by destruct (Hall val Hin).
Qed.

(** X4: on a list of names, not empty, that are all staged under [root],
    [marshal] opens each name under [root] once per occurrence and in the
    order of the list, and hands to the encoder the map that takes every
    name of the list, and nothing else, to the content staged for it. *)
Theorem marshal_reads_every_staged_name l fs root data :
  data <> [] ->
  (forall val, val ∈ data ->
     val <> ""
     /\ exists content,
         fs !! filepath.Join [root; val] = Some (os.File content)) ->
  exists buf,
    (forall name,
        buf !! name
        = if decide (name ∈ data) then Some (read_staged fs root name)
          else None)
    /\ marshal l fs root data
       = (map (fun val => EvOpen (filepath.Join [root; val])) data,
          match Marshal_files buf with
          | (_, Some e) => ("", Some (errors.Wrap e "failed to marshal"))
          | (ret, None) => (ret, None)
          end).
Proof. apply marshal_of_staged. Qed.
End Marshal.

(** ** One engine: the call and what the goroutine touches *)

Section Engine.
Context `{!proto.Names} `{!Json}.
Import lint.

Implicit Types (l : lint.lint) (w : Engines) (fs : os.FS) (root : string)
         (files : list string) (val : config.Lint).

Lemma flatten_from (groups : list (string * list proto.Format))
      (ret : list proto.Format) :
  fold_left (fun ret kv => ret ++ kv.2) groups ret
  = ret ++ concat (map snd groups).
Proof.
  revert ret. induction groups as [|kv groups IH]; intros ret; simpl.
  - by rewrite app_nil_r.
  - rewrite IH. by rewrite app_assoc.
Qed.

Lemma routine_cases l w host port data :
  let target := host +:+ ":" +:+ strconv.Itoa port in
  (exists e,
      Dial w target = Some e
      /\ routine l w host port data
         = ([EvDial target], ([], Some (errors.Wrap e "failed to dial"))))
  \/ (Dial w target = None
      /\ (routine l w host port data).1
         = [EvDial target; EvSendLint target data]
      /\ ((exists e, (routine l w host port data).2 = ([], Some e))
          \/ exists reply groups,
              SendLint w target data = (reply, None)
              /\ Unmarshal_groups reply = (groups, None)
              /\ (routine l w host port data).2
                 = (concat (map snd groups), None))).
Proof.
  intros target. unfold routine. fold target.
  destruct (Dial w target) as [e|]; [left; eauto |].
  right. split; [done |].
  destruct (SendLint w target data) as [reply [e|]] eqn:Es.
  { split; [done |]. left. eauto. }
  unfold routine_helper.
  destruct (Unmarshal_groups reply) as [groups [e|]] eqn:Eu.
  { split; [done |]. left. eauto. }
  split; [done |]. right. exists reply, groups.
  by rewrite flatten_from.
Qed.

(** X5: [routine] dials the engine's address and makes at most one call,
    with the given payload and only once the dial has succeeded.  When it
    reports an error it returns no findings; when it reports none, its
    findings are the groups of the decoded reply laid end to end in the
    order in which they are visited, each group in its own order. *)
Theorem routine_calls_once_and_flattens l w (host : string) (port : Z)
        (data : string) :
  let target := host +:+ ":" +:+ strconv.Itoa port in
  let x := routine l w host port data in
  (rpc_calls x.1 = []
   \/ Dial w target = None /\ rpc_calls x.1 = [(target, data)])
  /\ match x.2.2 with
     | Some _ => x.2.1 = []
     | None =>
         exists reply groups,
           Dial w target = None
           /\ SendLint w target data = (reply, None)
           /\ Unmarshal_groups reply = (groups, None)
           /\ x.2.1 = concat (map snd groups)
     end.
Proof.
  intros target x. subst x.
  destruct (routine_cases l w host port data)
    as [(e & Hd & ->)|(Hd & Hev & [(e & Hx)|(reply & groups & Hs & Hu & Hx)])].
  - split; [by left | done].
  - fold target in Hev. rewrite Hev, Hx. split; [right | ]; done.
  - fold target in Hev, Hs. rewrite Hev, Hx. split; [by right |].
    simpl. exists reply, groups. done.
Qed.

Lemma rpc_calls_app (p q : list event) :
  rpc_calls (p ++ q) = rpc_calls p ++ rpc_calls q.
Proof.
  induction p as [|ev p IH]; [done |].
  destruct ev; simpl; by rewrite IH.
Qed.

Lemma marshal_opens l fs root data ev :
  ev ∈ (marshal l fs root data).1 ->
  exists name, name ∈ data /\ ev = EvOpen (filepath.Join [root; name]).
Proof.
  unfold marshal.
  pose proof (marshal_range_opens fs root data ∅ ev) as Hr.
  destruct (marshal_range fs root data ∅) as [[buf e] evs]. simpl in Hr.
  destruct (Nat.eqb (size buf) 0); [done |].
  destruct e; [done |].
  by destruct (Marshal_files buf) as [ret [e|]].
Qed.

Lemma only_opens_no_calls (p : list event) :
  (forall ev, ev ∈ p -> exists name, ev = EvOpen name) -> rpc_calls p = [].
Proof.
  induction p as [|ev p IH]; intros Hall; [done |].
  destruct (Hall ev) as (name & ->); [left |]. simpl.
  apply IH. intros ev Hin. apply Hall. by right.
Qed.

Lemma task_events l w fs root files val :
  filter l (config.Filter_ val) files <> [] ->
  let f := filter l (config.Filter_ val) files in
  let m := marshal l fs root f in
  let x := routine l w (config.Host val) (config.Port val) m.2.1 in
  exists send_m send_r,
    task l w fs root files val
    = m.1 ++ send_m ++ x.1 ++ send_r
      ++ [EvResult {| data := x.2.1; err := None |}]
    /\ silent send_m = [] /\ silent send_r = [].
Proof.
  intros Hf. cbv zeta. unfold task.
  set (f := filter l (config.Filter_ val) files) in *.
  assert (Nat.eqb (length f) 0 = false) as ->
      by (destruct f; [done | reflexivity]).
  cbn [negb].
  destruct (marshal l fs root f) as [ev_m [m e]]. cbn [fst snd].
  destruct (routine l w (config.Host val) (config.Port val) m)
    as [ev_r [x e']]. cbn [fst snd].
  eexists _, _. split; [reflexivity |].
  by destruct e, e'.
Qed.

Lemma silent_no_calls (p : list event) : silent p = [] -> rpc_calls p = [].
Proof.
  induction p as [|ev p IH]; [done |].
  destruct ev; simpl; done.
Qed.

Lemma silent_no_member (p : list event) (ev : event) :
  silent p = [] -> ev ∈ p -> exists r, ev = EvResult r.
Proof.
  induction p as [|ev' p IH]; intros Hs Hin; [by apply elem_of_nil in Hin |].
  destruct ev'; simpl in Hs; try done.
  apply elem_of_cons in Hin as [->|Hin]; [eauto | by apply IH].
Qed.

Lemma task_within_selection l w fs root files val :
  (forall name, EvOpen name ∈ task l w fs root files val ->
     exists v, v ∈ files
               /\ selecting_extension v
                  ∈ config.Extension (config.Include_ (config.Filter_ val))
               /\ name = filepath.Join [root; v])
  /\ (forall target, EvDial target ∈ task l w fs root files val ->
        target = target_of val)
  /\ (rpc_calls (task l w fs root files val) = []
      \/ rpc_calls (task l w fs root files val)
         = [(target_of val,
             (marshal l fs root (filter l (config.Filter_ val) files)).2.1)]).
Proof.
  destruct (decide (filter l (config.Filter_ val) files = [])) as [Hf|Hf].
  { rewrite task_nothing_selected by done.
    split; [|split; [|by left]].
    - intros name Hin. apply list_elem_of_singleton in Hin. done.
    - intros target Hin. apply list_elem_of_singleton in Hin. done. }
  destruct (task_events l w fs root files val Hf)
    as (send_m & send_r & -> & Hm & Hr).
  set (f := filter l (config.Filter_ val) files) in *.
  set (m := marshal l fs root f).
  pose proof (routine_cases l w (config.Host val) (config.Port val) m.2.1)
    as Hx. cbv zeta in Hx. fold (target_of val) in Hx.
  set (x := routine l w (config.Host val) (config.Port val) m.2.1) in *.
  assert (forall ev, ev ∈ x.1 ->
            ev = EvDial (target_of val)
            \/ ev = EvSendLint (target_of val) m.2.1) as Hxev.
  { intros ev Hin.
    destruct Hx as [(e & _ & Hx)|(_ & Hx & _)]; rewrite Hx in Hin; simpl in Hin.
    - apply list_elem_of_singleton in Hin. by left.
    - apply elem_of_cons in Hin as [->|Hin]; [by left |].
      apply list_elem_of_singleton in Hin. by right. }
  split; [|split].
  - intros name Hin. rewrite !elem_of_app in Hin.
    destruct Hin as [Hin|[Hin|[Hin|[Hin|Hin]]]].
    + destruct (marshal_opens _ _ _ _ _ Hin) as (v & Hv & [= ->]).
      unfold f in Hv. rewrite lint_filter_is_filter in Hv.
      apply list_elem_of_filter in Hv as [Hsel Hv]. eauto.
    + by destruct (silent_no_member _ _ Hm Hin).
    + by destruct (Hxev _ Hin).
    + by destruct (silent_no_member _ _ Hr Hin).
    + by apply list_elem_of_singleton in Hin.
  - intros target Hin. rewrite !elem_of_app in Hin.
    destruct Hin as [Hin|[Hin|[Hin|[Hin|Hin]]]].
    + by destruct (marshal_opens _ _ _ _ _ Hin) as (v & Hv & ?).
    + by destruct (silent_no_member _ _ Hm Hin).
    + destruct (Hxev _ Hin) as [[= ->]|?]; done.
    + by destruct (silent_no_member _ _ Hr Hin).
    + by apply list_elem_of_singleton in Hin.
  - rewrite !rpc_calls_app.
    rewrite (only_opens_no_calls m.1).
    2:{ intros ev Hin. destruct (marshal_opens _ _ _ _ _ Hin) as (v & _ & ->).
        eauto. }
    rewrite (silent_no_calls _ Hm), (silent_no_calls _ Hr). simpl.
    rewrite app_nil_r.
    destruct Hx as [(e & _ & Hx)|(_ & Hx & _)]; rewrite Hx; simpl;
      [by left | by right].
Qed.

(** X6: the goroutine of an engine opens only names of the input that the
    engine's include set selects, each under [root]; it dials only the
    engine's own address; and it makes at most one call, to that address,
    whose request is what [marshal] made of the selected names. *)
Theorem task_stays_within_selection l w fs root files val :
  (forall name, EvOpen name ∈ task l w fs root files val ->
     exists v, v ∈ files
               /\ selecting_extension v
                  ∈ config.Extension (config.Include_ (config.Filter_ val))
               /\ name = filepath.Join [root; v])
  /\ (forall target, EvDial target ∈ task l w fs root files val ->
        target = target_of val)
  /\ (rpc_calls (task l w fs root files val) = []
      \/ rpc_calls (task l w fs root files val)
         = [(target_of val,
             (marshal l fs root (filter l (config.Filter_ val) files)).2.1)]).
Proof. apply task_within_selection. Qed.
End Engine.

(** ** More on the run *)

Section RunReturn.
Import lint.

Implicit Types (s : state) (gs : list (list event)) (p : list event)
         (r : result) (t : turn) (sched : list turn).

Lemma first_error_unique (pre pre' post post' : list result) (b b' : result) :
  pre ++ b :: post = pre' ++ b' :: post' ->
  Forall succeeded pre -> Forall succeeded pre' ->
  err b <> None -> err b' <> None -> b = b'.
Proof.
  revert pre'. induction pre as [|x pre IH]; intros [|x' pre'] Heq Hp Hp' Hb Hb';
    simpl in Heq; injection Heq as Hx Hrest.
  - done.
  - subst. apply Forall_cons in Hp' as [Hx _]. by destruct Hb.
  - subst. apply Forall_cons in Hp as [Hx _]. by destruct Hb'.
  - apply Forall_cons in Hp as [_ Hp]. apply Forall_cons in Hp' as [_ Hp'].
    by eapply IH.
Qed.

Lemma Forall2_replace_right {A B} (P : A -> B -> Prop) (xs : list A)
      (ys : list B) (i : nat) (y y' : B) :
  Forall2 P xs ys -> ys !! i = Some y ->
  (forall x, xs !! i = Some x -> P x y -> P x y') ->
  Forall2 P xs (<[i := y']> ys).
Proof.
  intros Hall. revert i. induction Hall as [|x0 y0 xs ys Hxy Hall IH];
    intros [|i] Hy Himp; simplify_eq/=.
  - constructor; [by apply Himp | done].
  - constructor; [done | by apply IH].
Qed.

Lemma first_error_silent gs0 s s' i ev rest :
  first_error_is_first_send gs0 s ->
  goroutines s !! i = Some (ev :: rest) ->
  sends (ev :: rest) = sends rest ->
  history s' = history s ->
  goroutines s' = <[i := rest]> (goroutines s) ->
  first_error_is_first_send gs0 s'.
Proof.
  intros Hfirst Hi Hs Eh Egs. unfold first_error_is_first_send.
  rewrite Eh, Egs.
  destruct Hfirst as [[Hh Hf2]|Hb]; [left | by right].
  split; [done |].
  eapply Forall2_replace_right; [exact Hf2 | exact Hi |].
  intros p0 _ Hp. by rewrite <- Hs.
Qed.

(** The first error of the history stays the first result of a task. *)
Lemma step_first_error n all gs0 t s s' :
  invariant n all s -> first_error_is_first_send gs0 s ->
  step t s = Some s' -> first_error_is_first_send gs0 s'.
Proof.
  intros Hinv Hfirst. unfold step. destruct t as [i|].
  - destruct (goroutines s !! i) as [[|ev rest]|] eqn:Hi; [done | | done].
    destruct ev.
    1-3: intros [= <-]; by eapply first_error_silent.
    destruct (Nat.ltb (length (chan s)) (capacity s)); [|done].
    intros [= <-].
    pose proof (Forall_lookup_1 _ _ _ _ (inv_ok_last _ _ _ Hinv) Hi) as Hok.
    simpl in Hok. destruct Hok as [Hlast _].
    destruct Hfirst as [[Hh Hf2]|(pre & bad & post & p0 & Hh & Hp & Hb & Hp0)].
    + destruct (Forall2_lookup_r _ _ _ _ _ Hf2 Hi) as (p0 & Hp0 & [Hs|Hs]);
        [|done].
      destruct (err r) as [e|] eqn:Er.
      * right. exists (history s), r, [], p0.
        split; [unfold history; simpl; by rewrite app_assoc |].
        split; [done |]. split; [by rewrite Er |].
        split; [by eapply list_elem_of_lookup_2 |].
        rewrite <- Hs. done.
      * left. split.
        -- unfold history in *. simpl. rewrite app_assoc.
           apply Forall_app. split; [done |]. by apply Forall_singleton.
        -- simpl. eapply Forall2_replace_right; [exact Hf2 | exact Hi |].
           intros x _ _. right. by apply Hlast.
    + right. exists pre, bad, (post ++ [r]), p0.
      split; [|done].
      unfold history in *. simpl. rewrite app_assoc, Hh.
      by rewrite <- app_assoc.
  - destruct (returned s); [done |].
    destruct (ranging s) as [|k]; [by intros [= <-] |].
    destruct (chan s) as [|r rest] eqn:Ech; [done |].
    unfold first_error_is_first_send, history in *. rewrite Ech in Hfirst.
    destruct (err r); intros [= <-]; simpl;
      rewrite <- (app_assoc (received s) [r] rest); exact Hfirst.
Qed.

Lemma exec_first_error n all gs0 sched s s' :
  invariant n all s -> first_error_is_first_send gs0 s ->
  exec sched s = Some s' -> first_error_is_first_send gs0 s'.
Proof.
  revert s. induction sched as [|t sched IH]; intros s Hinv Hfirst; simpl.
  - by intros [= <-].
  - destruct (step t s) as [s1|] eqn:Hs; [|done].
    apply IH; [by eapply step_invariant | by eapply step_first_error].
Qed.
End RunReturn.

Section RunEffects.
Import lint.

Implicit Types (s : state) (gs : list (list event)) (p : list event)
         (t : turn) (sched : list turn).

Lemma silent_member p ev : ev ∈ silent p -> ev ∈ p.
Proof.
  induction p as [|ev' p IH]; [done |].
  destruct ev'; simpl; intros Hin.
  1-3: apply elem_of_cons in Hin as [->|Hin]; [left | right; by apply IH].
  right. by apply IH.
Qed.

Lemma rpc_calls_silent p : rpc_calls (silent p) = rpc_calls p.
Proof.
  induction p as [|ev p IH]; [done |].
  destruct ev; simpl; by rewrite ?IH.
Qed.

Lemma rpc_calls_Permutation p q :
  Permutation p q -> Permutation (rpc_calls p) (rpc_calls q).
Proof.
  induction 1 as [|ev p q _ IH|ev ev' p|p q q' _ IH1 _ IH2].
  - done.
  - destruct ev; simpl; by rewrite ?IH.
  - destruct ev, ev'; simpl; try done. apply perm_swap.
  - by rewrite IH1.
Qed.

Lemma silent_insert_result gs i r rest :
  gs !! i = Some (EvResult r :: rest) ->
  concat (map silent (<[i := rest]> gs)) = concat (map silent gs).
Proof.
  revert i. induction gs as [|q gs IH]; intros [|i] Hi; simplify_eq/=.
  - done.
  - by rewrite (IH i).
Qed.

Lemma silent_insert_event gs i ev rest :
  gs !! i = Some (ev :: rest) -> silent (ev :: rest) = ev :: silent rest ->
  Permutation (ev :: concat (map silent (<[i := rest]> gs)))
              (concat (map silent gs)).
Proof.
  revert i. induction gs as [|q gs IH]; intros [|i] Hi Hs; simplify_eq/=.
  - by rewrite Hs.
  - rewrite <- (IH i Hi Hs). apply Permutation_middle.
Qed.

Lemma step_effects_accounted gs0 t s s' :
  effects_accounted gs0 s -> step t s = Some s' -> effects_accounted gs0 s'.
Proof.
  unfold effects_accounted, step. intros Hacc. destruct t as [i|].
  - destruct (goroutines s !! i) as [[|ev rest]|] eqn:Hi; [done | | done].
    destruct ev.
    1-3: intros [= <-]; simpl; rewrite <- Hacc, <- app_assoc;
         apply Permutation_app_head; simpl;
         by apply silent_insert_event.
    destruct (Nat.ltb (length (chan s)) (capacity s)); [|done].
    intros [= <-]. simpl. by rewrite (silent_insert_result _ _ _ _ Hi).
  - destruct (returned s); [done |].
    destruct (ranging s) as [|k]; [by intros [= <-] |].
    destruct (chan s) as [|r rest]; [done |].
    destruct (err r); by intros [= <-].
Qed.

Lemma exec_effects_accounted gs0 sched s s' :
  effects_accounted gs0 s -> exec sched s = Some s' ->
  effects_accounted gs0 s'.
Proof.
  revert s. induction sched as [|t sched IH]; intros s Hacc; simpl.
  - by intros [= <-].
  - destruct (step t s) as [s1|] eqn:Hs; [|done].
    apply IH. by eapply step_effects_accounted.
Qed.

Lemma effects_from_tasks gs0 s ev :
  effects_accounted gs0 s -> ev ∈ effects s ->
  exists p0, p0 ∈ gs0 /\ ev ∈ p0.
Proof.
  unfold effects_accounted. intros Hacc Hin.
  assert (ev ∈ concat (map silent gs0)) as Hev
      by (rewrite <- Hacc; apply elem_of_app; by left).
  apply list_elem_of_In, in_concat in Hev as (q & Hq & Hevq).
  apply in_map_iff in Hq as (p0 & <- & Hp0).
  exists p0. split; [by apply list_elem_of_In |].
  apply silent_member. by apply list_elem_of_In.
Qed.
End RunEffects.

Section RunMore.
Context `{!proto.Names} `{!Json}.
Import lint.

Implicit Types (l : lint.lint) (w : Engines) (fs : os.FS) (root : string)
         (files : list string) (val : config.Lint)
         (s : state) (sched : list turn).

Lemma spawn_first_error l w fs root files :
  first_error_is_first_send (goroutines (spawn l w fs root files))
                            (spawn l w fs root files).
Proof.
  left. split; [constructor |]. simpl.
  induction (map (task l w fs root files) (Lints (cfg l))) as [|p gs IH];
    constructor; [by left | done].
Qed.

Lemma spawn_effects_accounted l w fs root files :
  effects_accounted (goroutines (spawn l w fs root files))
                    (spawn l w fs root files).
Proof. unfold effects_accounted. done. Qed.

(** When [Run] has drained a result without error from every engine,
    every engine has succeeded. *)
Lemma drained_all_succeeded l w fs root files s :
  invariant (length (Lints (cfg l)))
            (pending (goroutines (spawn l w fs root files))) s ->
  Forall succeeded (received s) ->
  length (received s) = length (Lints (cfg l)) ->
  forall val, val ∈ Lints (cfg l) ->
              err (outcome l w fs root files val) = None.
Proof.
  intros [Hcap Hgs Hok Hall Hord Hdr Hret] Hsucc Hlen val Hval.
  destruct (err (outcome l w fs root files val)) as [e|] eqn:Ee; [|done].
  exfalso.
  destruct Hord as [[Hh Hfin]|(pre & bad & post & Hh & _ & Hbad & Hlt)].
  - pose proof (finished_le (goroutines s)) as Hle.
    assert (length (received s) <= length (history s)) as Hrh
        by (unfold history; rewrite length_app; lia).
    rewrite (finished_all_pending (goroutines s)) in Hall by lia.
    rewrite app_nil_r in Hall.
    assert (succeeded (outcome l w fs root files val)) as Hs.
    { eapply (proj1 (Forall_forall succeeded (history s)) Hh).
      rewrite Hall. by apply outcome_pending. }
    unfold succeeded in Hs. congruence.
  - apply Hbad.
    eapply (proj1 (Forall_forall succeeded (received s)) Hsucc).
    eapply prefix_holds_early; [exact Hh | lia].
Qed.

Lemma Run_return_classified l w fs root files sched out :
  Run l w fs root files sched = Some out ->
  (exists val,
      val ∈ Lints (cfg l)
      /\ err (outcome l w fs root files val) <> None
      /\ out = ([], err (outcome l w fs root files val)))
  \/ ((forall val, val ∈ Lints (cfg l) ->
                   err (outcome l w fs root files val) = None)
      /\ out.2 = None).
Proof.
  unfold Run.
  destruct (exec sched (spawn l w fs root files)) as [s|] eqn:Hexec; [|done].
  intros Hout.
  pose proof (reachable_invariant _ _ _ _ _ _ _ Hexec) as Hinv.
  pose proof (exec_first_error _ _ _ _ _ _ (spawn_invariant l w fs root files)
                (spawn_first_error l w fs root files) Hexec) as Hfirst.
  destruct (inv_returned _ _ _ Hinv out Hout)
    as [(oks & bad & e & Hrec & Hoks & Hbad & ->)|(Hsucc & Hlen & ->)].
  - left.
    destruct Hfirst as [[Hh _]|(pre & bad' & post & p0 & Hh & Hp & Hb & Hp0 & Hhd)].
    + exfalso.
      assert (succeeded bad) as Hs.
      { eapply (proj1 (Forall_forall succeeded (history s)) Hh).
        unfold history. rewrite Hrec. apply elem_of_app. left.
        apply elem_of_app. right. left. }
      unfold succeeded in Hs. congruence.
    + assert (bad = bad') as <-.
      { eapply (first_error_unique oks pre (chan s) post); try done.
        - rewrite <- Hh. unfold history. rewrite Hrec.
          by rewrite <- app_assoc.
        - by rewrite Hbad. }
      simpl in Hp0. apply list_elem_of_fmap in Hp0 as (val & -> & Hval).
      destruct (task_sends_outcome_first l w fs root files val)
        as (more & Hs & _).
      rewrite Hs in Hhd. injection Hhd as Hhd.
      exists val. rewrite Hhd, Hbad. done.
  - right. split; [|done].
    by eapply drained_all_succeeded.
Qed.

Lemma task_calls_at_most_once l w fs root files val :
  length (rpc_calls (task l w fs root files val)) <= 1.
Proof.
  destruct (task_within_selection l w fs root files val) as (_ & _ & [->| ->]);
    simpl; lia.
Qed.

Lemma tasks_calls_bounded l w fs root files vals :
  length (rpc_calls (concat (map silent (map (task l w fs root files) vals))))
  <= length vals.
Proof.
  induction vals as [|val vals IH]; simpl; [done |].
  rewrite rpc_calls_app, length_app, rpc_calls_silent.
  pose proof (task_calls_at_most_once l w fs root files val). lia.
Qed.

Lemma Run_effects_selected l w fs root files sched s :
  exec sched (spawn l w fs root files) = Some s ->
  (forall name, EvOpen name ∈ effects s ->
     exists val v,
       val ∈ Lints (cfg l) /\ v ∈ files
       /\ selecting_extension v
          ∈ config.Extension (config.Include_ (config.Filter_ val))
       /\ name = filepath.Join [root; v])
  /\ (forall target, EvDial target ∈ effects s ->
        exists val, val ∈ Lints (cfg l) /\ target = target_of val)
  /\ (forall target message, EvSendLint target message ∈ effects s ->
        exists val, val ∈ Lints (cfg l) /\ target = target_of val)
  /\ length (rpc_calls (effects s)) <= length (Lints (cfg l)).
Proof.
  intros Hexec.
  pose proof (exec_effects_accounted _ _ _ _
                (spawn_effects_accounted l w fs root files) Hexec) as Hacc.
  assert (forall ev, ev ∈ effects s ->
            exists val, val ∈ Lints (cfg l)
                        /\ ev ∈ task l w fs root files val) as Hfrom.
  { intros ev Hin.
    destruct (effects_from_tasks _ _ _ Hacc Hin) as (p0 & Hp0 & Hev).
    simpl in Hp0. apply list_elem_of_fmap in Hp0 as (val & -> & Hval).
    eauto. }
  split; [|split; [|split]].
  - intros name Hin. destruct (Hfrom _ Hin) as (val & Hval & Hev).
    destruct (task_within_selection l w fs root files val) as (Hopen & _ & _).
    destruct (Hopen name Hev) as (v & Hv & Hsel & ->). eauto 10.
  - intros target Hin. destruct (Hfrom _ Hin) as (val & Hval & Hev).
    destruct (task_within_selection l w fs root files val) as (_ & Hdial & _).
    eauto.
  - intros target message Hin. destruct (Hfrom _ Hin) as (val & Hval & Hev).
    destruct (task_within_selection l w fs root files val)
      as (_ & _ & Hcalls).
    assert ((target, message) ∈ rpc_calls (task l w fs root files val))
      as Hc.
    { clear -Hev. induction (task l w fs root files val) as [|ev p IH];
        [by apply elem_of_nil in Hev |].
      apply elem_of_cons in Hev as [<-|Hev]; [left |].
      destruct ev; simpl; try (by apply IH). right. by apply IH. }
    destruct Hcalls as [Hc0|Hc1].
    + rewrite Hc0 in Hc. by apply elem_of_nil in Hc.
    + rewrite Hc1 in Hc. apply list_elem_of_singleton in Hc as [= -> _].
      eauto.
  - unfold effects_accounted in Hacc.
    apply rpc_calls_Permutation, Permutation_length in Hacc.
    rewrite rpc_calls_app, length_app in Hacc.
    pose proof (tasks_calls_bounded l w fs root files (Lints (cfg l))).
    simpl in Hacc. lia.
Qed.

(** X7: [Run] returns an error exactly when some configured engine has
    failed, and the error it returns is then the outcome of such an
    engine, that is the error of the first step of that engine that
    failed, with no findings; when it returns no error, every configured
    engine has succeeded. *)
Theorem Run_returns_the_outcome_of_a_failed_engine l w fs root files sched
        (out : list proto.Format * option error) :
  Run l w fs root files sched = Some out ->
  (exists val,
      val ∈ Lints (cfg l)
      /\ err (outcome l w fs root files val) <> None
      /\ out = ([], err (outcome l w fs root files val)))
  \/ ((forall val, val ∈ Lints (cfg l) ->
                   err (outcome l w fs root files val) = None)
      /\ out.2 = None).
Proof. apply Run_return_classified. Qed.

(** X8: whatever the schedule, the files opened during a run are names
    of the input, under [root], that the include set of some configured
    engine selects; the addresses dialled and called are those of
    configured engines; and there are at most as many RPC calls as
    configured engines. *)
Theorem Run_touches_only_what_engines_select l w fs root files sched s :
  exec sched (spawn l w fs root files) = Some s ->
  (forall name, EvOpen name ∈ effects s ->
     exists val v,
       val ∈ Lints (cfg l) /\ v ∈ files
       /\ selecting_extension v
          ∈ config.Extension (config.Include_ (config.Filter_ val))
       /\ name = filepath.Join [root; v])
  /\ (forall target, EvDial target ∈ effects s ->
        exists val, val ∈ Lints (cfg l) /\ target = target_of val)
  /\ (forall target message, EvSendLint target message ∈ effects s ->
        exists val, val ∈ Lints (cfg l) /\ target = target_of val)
  /\ length (rpc_calls (effects s)) <= length (Lints (cfg l)).
Proof. apply Run_effects_selected. Qed.
End RunMore.

(** ** More on the adapter *)

Section Requests.
Context `{!Json} `{!Url}.
Import proto review.

Lemma append_assoc (s1 s2 s3 : string) :
  (s1 +:+ s2) +:+ s3 = s1 +:+ s2 +:+ s3.
Proof.
  induction s1 as [|c s1 IH]; [reflexivity |].
  change (String c ((s1 +:+ s2) +:+ s3) = String c (s1 +:+ s2 +:+ s3)).
  by rewrite IH.
Qed.

Lemma authenticated_spec (g : gerrit) :
  authenticated g = true
  <-> config.User (r g) <> "" /\ config.Pass (r g) <> "".
Proof.
  unfold authenticated. rewrite andb_true_iff, !negb_true_iff.
  by rewrite !String.eqb_neq.
Qed.

Lemma urls_share_prefix (g : gerrit) (change revision start : Z)
      (name search : string) (option_ : list string) :
  urlQuery g search option_ start
  = changes_prefix g +:+ "?q=" +:+ search +:+ "&o="
    +:+ strings.Join option_ "&o=" +:+ "&n=" +:+ strconv.Itoa start
  /\ urlDetail g change
     = changes_prefix g +:+ strconv.Itoa change +:+ "/detail"
  /\ urlPatch g change revision
     = changes_prefix g +:+ strconv.Itoa change +:+ "/revisions/"
       +:+ strconv.Itoa revision +:+ "/patch"
  /\ urlContent g change revision name
     = changes_prefix g +:+ strconv.Itoa change +:+ "/revisions/"
       +:+ strconv.Itoa revision +:+ "/files/" +:+ PathEscape name
       +:+ "/content"
  /\ urlReview g change revision
     = changes_prefix g +:+ strconv.Itoa change +:+ "/revisions/"
       +:+ strconv.Itoa revision +:+ "/review".
Proof.
  unfold urlQuery, urlDetail, urlPatch, urlContent, urlReview, changes_prefix.
  destruct (authenticated g); rewrite !append_assoc; done.
Qed.

Lemma get_hands_over (g : gerrit) (w : World) (_url : string) :
  get g w _url
  = match NewRequest w "GET" _url with
    | Some e => Err (errors.Wrap e "failed to request")
    | None => body_of (Do w (request_of_get g _url))
    end.
Proof.
  unfold get, body_of. destruct (NewRequest w "GET" _url); [done |].
  fold (request_of_get g _url).
  destruct (Do w (request_of_get g _url)) as [rsp [e|]]; [done |].
  simpl. destruct (negb (Z.eqb (StatusCode rsp) 200)); [done |].
  by destruct (Body rsp) as [body [e|]].
Qed.

Lemma post_hands_over (g : gerrit) (w : World) (_url : string)
      (data : gmap string value) (req : request) :
  req ∈ (post g w _url data).1 ->
  exists payload,
    Marshal_value data = (payload, None)
    /\ NewRequest w "POST" _url = None
    /\ req = request_of_post g _url payload.
Proof.
  destruct (Marshal_value data) as [payload [e|]] eqn:Hm.
  { unfold post. rewrite Hm. simpl. by intros ?%elem_of_nil. }
  destruct (NewRequest w "POST" _url) as [e|] eqn:Hn.
  { unfold post. rewrite Hm, Hn. simpl. by intros ?%elem_of_nil. }
  rewrite (post_sends g w _url payload data Hm Hn). simpl.
  intros ->%list_elem_of_singleton. by exists payload.
Qed.

Lemma credentials_by_prefix (g : gerrit) :
  config.User (r g) <> "" /\ config.Pass (r g) <> ""
  /\ changes_prefix g = base g +:+ "/a/changes/"
  /\ credentials g = Some (config.User (r g), config.Pass (r g))
  \/ (config.User (r g) = "" \/ config.Pass (r g) = "")
     /\ changes_prefix g = base g +:+ "/changes/"
     /\ credentials g = None.
Proof.
  unfold changes_prefix, credentials.
  destruct (authenticated g) eqn:Ha.
  - left. apply authenticated_spec in Ha as [Hu Hp]. done.
  - right. split; [|done].
    destruct (String.eqb_spec (config.User (r g)) "") as [Hu|Hu]; [by left |].
    destruct (String.eqb_spec (config.Pass (r g)) "") as [Hp|Hp]; [by right |].
    assert (authenticated g = true) as Ht by (by apply authenticated_spec).
    congruence.
Qed.

(** X9: the five URL builders put the same prefix before what they
    address.  What [get] returns for a URL is made of the client's answer
    to one request, the GET of that URL, unless the request cannot be
    built; every request that [post] hands to the client for a URL is the
    POST of that URL with the JSON content type and the encoded body.
    Both requests carry the credentials that go with the prefix: when
    both a user and a password are configured the prefix is the
    authenticated one and the requests carry that user and password; when
    either is empty the prefix is the anonymous one and the requests
    carry no credentials. *)
Theorem urls_and_credentials_agree (g : gerrit) (w : World)
        (change revision start : Z) (name search : string)
        (option_ : list string) (_url : string) (data : gmap string value) :
  (urlQuery g search option_ start
   = changes_prefix g +:+ "?q=" +:+ search +:+ "&o="
     +:+ strings.Join option_ "&o=" +:+ "&n=" +:+ strconv.Itoa start
   /\ urlDetail g change
      = changes_prefix g +:+ strconv.Itoa change +:+ "/detail"
   /\ urlPatch g change revision
      = changes_prefix g +:+ strconv.Itoa change +:+ "/revisions/"
        +:+ strconv.Itoa revision +:+ "/patch"
   /\ urlContent g change revision name
      = changes_prefix g +:+ strconv.Itoa change +:+ "/revisions/"
        +:+ strconv.Itoa revision +:+ "/files/" +:+ PathEscape name
        +:+ "/content"
   /\ urlReview g change revision
      = changes_prefix g +:+ strconv.Itoa change +:+ "/revisions/"
        +:+ strconv.Itoa revision +:+ "/review")
  /\ get g w _url
     = match NewRequest w "GET" _url with
       | Some e => Err (errors.Wrap e "failed to request")
       | None => body_of (Do w (request_of_get g _url))
       end
  /\ (forall req,
        req ∈ (post g w _url data).1 ->
        exists payload,
          Marshal_value data = (payload, None)
          /\ req = request_of_post g _url payload)
  /\ Method (request_of_get g _url) = "GET"
  /\ URL (request_of_get g _url) = _url
  /\ (forall payload,
        Method (request_of_post g _url payload) = "POST"
        /\ URL (request_of_post g _url payload) = _url
        /\ ContentType (request_of_post g _url payload)
           = Some "application/json;charset=utf-8"
        /\ Payload (request_of_post g _url payload) = payload)
  /\ (config.User (r g) <> "" /\ config.Pass (r g) <> ""
      /\ changes_prefix g = base g +:+ "/a/changes/"
      /\ BasicAuth (request_of_get g _url)
         = Some (config.User (r g), config.Pass (r g))
      /\ (forall payload,
            BasicAuth (request_of_post g _url payload)
            = Some (config.User (r g), config.Pass (r g)))
      \/ (config.User (r g) = "" \/ config.Pass (r g) = "")
         /\ changes_prefix g = base g +:+ "/changes/"
         /\ BasicAuth (request_of_get g _url) = None
         /\ (forall payload,
               BasicAuth (request_of_post g _url payload) = None)).
Proof.
  split; [apply urls_share_prefix |].
  split; [apply get_hands_over |].
  split.
  { intros req Hreq.
    destruct (post_hands_over g w _url data req Hreq)
      as (payload & Hm & _ & ->).
    by exists payload. }
  split; [done |]. split; [done |]. split; [done |].
  destruct (credentials_by_prefix g)
    as [(Hu & Hp & Hpre & Hc)|(Hup & Hpre & Hc)]; [left | right];
    simpl; rewrite Hc; done.
Qed.

Lemma Vote_posts (g : gerrit) (w : World) (commit : string)
      (data : list Format) :
  ((Vote g w commit data).1 = [] /\ (Vote g w commit data).2 <> Ok tt)
  \/ exists reply ret revisions id current change revision buf payload,
      let req := request_of_post g (urlReview g change revision) payload in
      get g w (urlQuery g ("commit:" +:+ commit) ["CURRENT_REVISION"] 0)
      = Ok reply
      /\ unmarshalList g reply = Ok ret
      /\ ret !! "revisions" = Some (VMap revisions)
      /\ ret !! "current_revision" = Some (VString id)
      /\ revisions !! id = Some (VMap current)
      /\ ret !! "_number" = Some (VNumber change)
      /\ current !! "_number" = Some (VNumber revision)
      /\ Vote_review g w commit data = Ok (urlReview g change revision, buf)
      /\ Marshal_value buf = (payload, None)
      /\ (Vote g w commit data).1 = [req]
      /\ (Vote g w commit data).2
         = errors.wrapped (posted_of (Do w req)) "failed to review"
      /\ ((Vote g w commit data).2 = Ok tt ->
          (Do w req).2 = None /\ StatusCode (Do w req).1 = 200%Z).
Proof.
  destruct (Vote_review g w commit data) as [[_url buf]|e|why] eqn:Hr;
    [|left; unfold Vote; by rewrite Hr|left; unfold Vote; by rewrite Hr].
  destruct (Marshal_value buf) as [payload [e|]] eqn:Hm.
  { left. unfold Vote, post. rewrite Hr, Hm. done. }
  destruct (NewRequest w "POST" _url) as [e|] eqn:Hn.
  { left. unfold Vote, post. rewrite Hr, Hm, Hn. done. }
  right.
  destruct (Vote_review_success g w commit data _url buf Hr)
    as (reply & ret & revisions & id & current & change & revision
        & comments & labels & Hget & Hlist & Hrevs & Hid & Hcur & Hchange
        & Hrev & _ & -> & Hbuf).
  exists reply, ret, revisions, id, current, change, revision, buf, payload.
  cbv zeta.
  assert (Vote g w commit data
          = ([request_of_post g (urlReview g change revision) payload],
             errors.wrapped
               (posted_of
                  (Do w (request_of_post g (urlReview g change revision)
                                         payload)))
               "failed to review")) as Hv.
  { unfold Vote. rewrite Hr. cbv beta iota.
    by rewrite (post_sends g w _ payload _ Hm Hn). }
  rewrite Hv. simpl.
  repeat (split; [done |]).
  unfold posted_of.
  destruct (Do w (request_of_post g (urlReview g change revision) payload))
    as [rsp [e|]]; simpl; [done |].
  destruct (Z.eqb_spec (StatusCode rsp) 200%Z) as [Hs|Hs]; simpl; done.
Qed.

(** X10: [Vote] posts at most one review.  The POST requests that it
    hands to the HTTP client are none or one; the GET of its query comes
    before them and is not among them.  If it posts nothing it does not
    report success.  If it posts, the query has returned a reply that
    decodes to a change with a current revision; the request is the POST
    of the encoded body [{comments, labels, message}] to the review URL
    of that change and revision, with the JSON content type and the
    configured credentials; what [Vote] returns is made of the client's
    answer to that request; and it reports success only if the client
    has answered it without error and with status 200. *)
Theorem Vote_posts_at_most_one_review (g : gerrit) (w : World)
        (commit : string) (data : list Format) :
  ((Vote g w commit data).1 = [] /\ (Vote g w commit data).2 <> Ok tt)
  \/ exists reply ret revisions id current change revision buf payload,
      let req := request_of_post g (urlReview g change revision) payload in
      get g w (urlQuery g ("commit:" +:+ commit) ["CURRENT_REVISION"] 0)
      = Ok reply
      /\ unmarshalList g reply = Ok ret
      /\ ret !! "revisions" = Some (VMap revisions)
      /\ ret !! "current_revision" = Some (VString id)
      /\ revisions !! id = Some (VMap current)
      /\ ret !! "_number" = Some (VNumber change)
      /\ current !! "_number" = Some (VNumber revision)
      /\ Vote_review g w commit data = Ok (urlReview g change revision, buf)
      /\ Marshal_value buf = (payload, None)
      /\ (Vote g w commit data).1 = [req]
      /\ (Vote g w commit data).2
         = errors.wrapped (posted_of (Do w req)) "failed to review"
      /\ ((Vote g w commit data).2 = Ok tt ->
          (Do w req).2 = None /\ StatusCode (Do w req).1 = 200%Z).
Proof. apply Vote_posts. Qed.
End Requests.

(** ** More on staging *)

Section Store.
Context `{!proto.Names} `{!Json} `{!Url}.
Import proto review.

Lemma kept_refl (fs : os.FS) : kept fs fs.
Proof. by intros path. Qed.

Lemma kept_trans (fs1 fs2 fs3 : os.FS) :
  kept fs1 fs2 -> kept fs2 fs3 -> kept fs1 fs3.
Proof.
  intros H12 H23 path. destruct (H12 path), (H23 path). split; auto.
Qed.

Lemma mkdirs_lookup (fs : os.FS) (paths : list string) (path : string) :
  foldr (fun p acc => <[p := os.Directory]> acc) fs paths !! path
  = if decide (path ∈ paths) then Some os.Directory else fs !! path.
Proof.
  induction paths as [|p paths IH]; cbn [foldr].
  - rewrite decide_False; [done | apply not_elem_of_nil].
  - destruct (decide (p = path)) as [->|Hne].
    + rewrite lookup_insert_eq, decide_True; [done | left].
    + rewrite lookup_insert_ne, IH by done.
      destruct (decide (path ∈ paths)) as [Hin|Hnin].
      * rewrite decide_True; [done | by right].
      * rewrite decide_False; [done |].
        intros Hin. apply elem_of_cons in Hin as [?|?]; congruence.
Qed.

Lemma MkdirAll_kept (fs fs' : os.FS) (path : string) (e : option error) :
  os.MkdirAll fs path = (fs', e) -> kept fs fs'.
Proof.
  unfold os.MkdirAll.
  destruct (List.find (os.is_file fs) (path :: os.parents path)) eqn:Hfind.
  { intros [= <- _]. apply kept_refl. }
  intros [= <- _] q. unfold os.is_dir, os.is_file.
  pose proof (mkdirs_lookup fs (path :: os.parents path) q) as Hl.
  cbn [foldr] in Hl. rewrite Hl.
  destruct (decide (q ∈ path :: os.parents path)) as [Hin|Hnin]; [|done].
  split; [done |].
  intros Hq. exfalso.
  apply list_elem_of_In in Hin.
  pose proof (find_none _ _ Hfind q Hin) as Hnone.
  unfold os.is_file in Hnone. congruence.
Qed.

Lemma MkdirAll_makes_directory (fs fs' : os.FS) (path : string) :
  os.MkdirAll fs path = (fs', None) -> os.is_dir fs' path = true.
Proof.
  unfold os.MkdirAll.
  destruct (List.find (os.is_file fs) (path :: os.parents path)); [done |].
  intros [= <-]. unfold os.is_dir.
  pose proof (mkdirs_lookup fs (path :: os.parents path) path) as Hl.
  cbn [foldr] in Hl. rewrite Hl.
  rewrite decide_True; [done | left].
Qed.

Lemma Create_WriteString_kept (fs fs' : os.FS) (name data : string)
      (e : option error) :
  os.Create_WriteString fs name data = (fs', e) -> kept fs fs'.
Proof.
  unfold os.Create_WriteString.
  destruct (os.is_dir fs name) eqn:Hd; [intros [= <- _]; apply kept_refl |].
  destruct (os.is_dir fs (filepath.Dir name));
    [|intros [= <- _]; apply kept_refl].
  simpl. intros [= <- _] q. unfold os.is_dir, os.is_file in *.
  destruct (decide (name = q)) as [->|Hne].
  - rewrite lookup_insert_eq. split; [|done]. intros Hq. congruence.
  - by rewrite lookup_insert_ne.
Qed.

Lemma Fetch_helper_keeps (dir file data : string) :
  keeps (Fetch_helper dir file data).
Proof.
  intros fs fs' x. unfold Fetch_helper.
  destruct (os.MkdirAll fs dir) as [fs1 e1] eqn:Hm.
  pose proof (MkdirAll_kept _ _ _ _ Hm) as Hk1.
  destruct e1; [by intros [= <- _] |].
  destruct (os.Create_WriteString fs1 (filepath.Join [dir; file]) data)
    as [fs2 e2] eqn:Hc.
  pose proof (Create_WriteString_kept _ _ _ _ _ Hc) as Hk2.
  destruct e2; intros [= <- _]; by eapply kept_trans.
Qed.

Lemma pure_keeps {A} (m : res A) : keeps (pure m).
Proof. intros fs fs' x [= <- _]. apply kept_refl. Qed.

Lemma ret_keeps {A} (a : A) : keeps (mret a : io A).
Proof. intros fs fs' x [= <- _]. apply kept_refl. Qed.

Lemma io_wrapped_keeps {A} (m : io A) (msg : string) :
  keeps m -> keeps (io_wrapped m msg).
Proof.
  intros Hm fs fs' x. unfold io_wrapped.
  destruct (m fs) as [fs1 y] eqn:E. intros [= <- _]. by eapply Hm.
Qed.

Lemma bind_keeps {A B} (m : io A) (k : A -> io B) :
  keeps m -> (forall a, keeps (k a)) -> keeps (m ≫= k).
Proof.
  intros Hm Hk fs fs' x. unfold mbind, io_mbind.
  destruct (m fs) as [fs1 [a|e|why]] eqn:E.
  - intros Hka. eapply kept_trans; [by eapply Hm | by eapply Hk].
  - intros [= <- _]. by eapply Hm.
  - intros [= <- _]. by eapply Hm.
Qed.

Lemma Fetch_content_keeps (g : gerrit) (w : World) (path : string)
      (changeNum revisionNum : Z) (keys : list string) :
  keeps (Fetch_content g w path changeNum revisionNum keys).
Proof.
  induction keys as [|key rest IH]; cbn [Fetch_content].
  - apply ret_keeps.
  - apply bind_keeps; [apply pure_keeps |]. intros buf.
    apply bind_keeps; [apply io_wrapped_keeps, Fetch_helper_keeps |].
    intros _. exact IH.
Qed.

Lemma Fetch_keeps (g : gerrit) (w : World) (commit : string) :
  keeps (Fetch g w commit).
Proof.
  unfold Fetch.
  repeat (apply bind_keeps; [first [apply pure_keeps
                                   | apply io_wrapped_keeps, Fetch_helper_keeps
                                   | apply Fetch_content_keeps] | intros ?]).
  apply ret_keeps.
Qed.

(** X11: whatever [Fetch] ends with, a result, an error or a fault, it
    removes no path from the store and changes the kind of none: every
    path that was a directory is still a directory and every path that
    was a regular file is still a regular file, also what it staged
    before it failed.  The content of a regular file is not covered: a
    file at a path that [Fetch] stages to is truncated and rewritten. *)
Theorem Fetch_removes_no_path_and_keeps_kinds (g : gerrit) (w : World)
        (commit : string) (fs fs' : os.FS) (x : res (string * list string)) :
  Fetch g w commit fs = (fs', x) ->
  forall path,
    (os.is_dir fs path = true -> os.is_dir fs' path = true)
    /\ (os.is_file fs path = true -> os.is_file fs' path = true).
Proof. apply Fetch_keeps. Qed.

Lemma helper_then_marshal (l : lint.lint) (dir file data : string)
      (fs fs' : os.FS) :
  file <> "" ->
  Fetch_helper dir file data fs = (fs', Ok tt) ->
  lint.marshal l fs' dir [file]
  = ([lint.EvOpen (filepath.Join [dir; file])],
     match Marshal_files {[ file := data ]} with
     | (_, Some e) => ("", Some (errors.Wrap e "failed to marshal"))
     | (ret, None) => (ret, None)
     end).
Proof.
  intros Hfile Hh. apply marshal_reads_joined; [done |].
  by eapply Fetch_helper_writes.
Qed.

(** X12: what the staging closure of [Fetch] writes as [file] in [dir],
    [marshal] reads back unchanged when it is given [dir] as root and
    [file] as name: the payload it encodes maps [file] to exactly the
    bytes written. *)
Theorem staged_file_is_read_back_from_its_directory (l : lint.lint)
        (dir file data : string) (fs fs' : os.FS) :
  file <> "" ->
  Fetch_helper dir file data fs = (fs', Ok tt) ->
  lint.marshal l fs' dir [file]
  = ([lint.EvOpen (filepath.Join [dir; file])],
     match Marshal_files {[ file := data ]} with
     | (_, Some e) => ("", Some (errors.Wrap e "failed to marshal"))
     | (ret, None) => (ret, None)
     end).
Proof. apply helper_then_marshal. Qed.
End Store.

Section FetchResult.
Context `{!proto.Names} `{!Json} `{!Url}.
Import proto review.

Ltac io_step :=
  cbn [errors.wrapped assert_map assert_string assert_float64];
  cbv beta iota zeta.






Lemma Fetch_faults_without_files (g : gerrit) (w : World) (commit : string)
      (fs fs1 : os.FS) (d reply id patch why : string)
      (ret revisions current : gmap string value) (change revision : Z) :
  Getwd w = (d, None) ->
  get g w (urlQuery g ("commit:" +:+ commit)
                    ["CURRENT_FILES"; "CURRENT_REVISION"] 0) = Ok reply ->
  unmarshalList g reply = Ok ret ->
  ret !! "revisions" = Some (VMap revisions) ->
  ret !! "current_revision" = Some (VString id) ->
  revisions !! id = Some (VMap current) ->
  ret !! "_number" = Some (VNumber change) ->
  current !! "_number" = Some (VNumber revision) ->
  get g w (urlPatch g change revision) = Ok patch ->
  Fetch_helper
    (filepath.Join [filepath.Join [d; "gerrit-" +:+ Today w];
                    strconv.Itoa change; id])
    Base64Patch patch fs = (fs1, Ok tt) ->
  assert_map (current !! "files") = Fault why ->
  Fetch g w commit fs = (fs1, Fault why).
Proof.
  intros Hd Hq Hu E1 E2 E3 E4 E5 Hp Hh E6.
  unfold Fetch, mbind, io_mbind, pure, mret, io_ret, io_wrapped.
  rewrite Hd, Hq. io_step. rewrite Hu. io_step. rewrite E1. io_step.
  rewrite E2. io_step. rewrite E3. io_step. rewrite E4. io_step.
  rewrite E5. io_step. rewrite Hp. io_step. rewrite Hh. io_step.
  rewrite E6. done.
Qed.

(** X14: the type assertion on the [files] of the current revision comes
    after the patch has been written: when the change is resolved and the
    patch staged but the revision has no [files] object, [Fetch] faults,
    and the store it leaves is the one with the patch staged. *)
Theorem Fetch_faults_after_staging_the_patch (g : gerrit) (w : World)
        (commit : string) (fs fs1 : os.FS) (d reply id patch why : string)
        (ret revisions current : gmap string value) (change revision : Z) :
  Getwd w = (d, None) ->
  get g w (urlQuery g ("commit:" +:+ commit)
                    ["CURRENT_FILES"; "CURRENT_REVISION"] 0) = Ok reply ->
  unmarshalList g reply = Ok ret ->
  ret !! "revisions" = Some (VMap revisions) ->
  ret !! "current_revision" = Some (VString id) ->
  revisions !! id = Some (VMap current) ->
  ret !! "_number" = Some (VNumber change) ->
  current !! "_number" = Some (VNumber revision) ->
  get g w (urlPatch g change revision) = Ok patch ->
  Fetch_helper
    (filepath.Join [filepath.Join [d; "gerrit-" +:+ Today w];
                    strconv.Itoa change; id])
    Base64Patch patch fs = (fs1, Ok tt) ->
  assert_map (current !! "files") = Fault why ->
  Fetch g w commit fs = (fs1, Fault why).
Proof. apply Fetch_faults_without_files. Qed.

Lemma adapter_faults_without_revisions (g : gerrit) (w : World)
      (commit reply1 reply2 why1 why2 : string) (fs : os.FS)
      (data : list Format) (ret1 ret2 : gmap string value) :
  (Getwd w).2 = None ->
  get g w (urlQuery g ("commit:" +:+ commit)
                    ["CURRENT_FILES"; "CURRENT_REVISION"] 0) = Ok reply1 ->
  unmarshalList g reply1 = Ok ret1 ->
  assert_map (ret1 !! "revisions") = Fault why1 ->
  get g w (urlQuery g ("commit:" +:+ commit) ["CURRENT_REVISION"] 0)
  = Ok reply2 ->
  unmarshalList g reply2 = Ok ret2 ->
  assert_map (ret2 !! "revisions") = Fault why2 ->
  Fetch g w commit fs = (fs, Fault why1)
  /\ Vote g w commit data = ([], Fault why2).
Proof.
  intros Hd Hq1 Hu1 Hr1 Hq2 Hu2 Hr2. split.
  - unfold Fetch, mbind, io_mbind, pure, mret, io_ret, io_wrapped.
    destruct (Getwd w) as [d [e|]]; [done |].
    rewrite Hq1. simpl. rewrite Hu1. simpl. rewrite Hr1. done.
  - unfold Vote, Vote_review.
    rewrite Hq2. simpl. rewrite Hu2. simpl. rewrite Hr2. done.
Qed.

(** X15: a query reply that decodes to an object without a [revisions]
    object makes both [Fetch] and [Vote] fault at the type assertion
    instead of returning an error; [Fetch] has then written nothing and
    [Vote] has posted nothing. *)
Theorem adapter_faults_on_reply_without_revisions (g : gerrit) (w : World)
        (commit reply1 reply2 why1 why2 : string) (fs : os.FS)
        (data : list Format) (ret1 ret2 : gmap string value) :
  (Getwd w).2 = None ->
  get g w (urlQuery g ("commit:" +:+ commit)
                    ["CURRENT_FILES"; "CURRENT_REVISION"] 0) = Ok reply1 ->
  unmarshalList g reply1 = Ok ret1 ->
  assert_map (ret1 !! "revisions") = Fault why1 ->
  get g w (urlQuery g ("commit:" +:+ commit) ["CURRENT_REVISION"] 0)
  = Ok reply2 ->
  unmarshalList g reply2 = Ok ret2 ->
  assert_map (ret2 !! "revisions") = Fault why2 ->
  Fetch g w commit fs = (fs, Fault why1)
  /\ Vote g w commit data = ([], Fault why2).
Proof. apply adapter_faults_without_revisions. Qed.
End FetchResult.

(** ** The further properties in the concrete setting *)

Section MoreExamples.
Import proto lint review scenario.
#[local] Existing Instances names json url.

(** A dispatcher made from the default configuration has no engine. *)
Example Run_of_default_config :
  Lints (cfg (New DefaultConfig)) = []
  /\ Run (New DefaultConfig) engines staged "/r" files [Main]
     = Some ([], None).
Proof. split; reflexivity. Qed.

Lemma marshal_succeeds_only_on_staged_names_witness :
  (marshal both staged "/r" files).2.2 = None
  /\ files <> []
  /\ ("" ∉ files)
  /\ forall val, val ∈ files ->
       exists content,
         staged !! filepath.Join ["/r"; val] = Some (os.File content).
Proof.
  assert ((marshal both staged "/r" files).2.2 = None) as Hok
      by (vm_compute; reflexivity).
  split; [exact Hok |].
  exact (marshal_succeeds_only_on_staged_names both staged "/r" files Hok).
Defined.

Lemma marshal_reads_every_staged_name_witness :
  files <> []
  /\ (forall val, val ∈ files ->
        val <> ""
        /\ exists content,
            staged !! filepath.Join ["/r"; val] = Some (os.File content))
  /\ exists buf,
      (forall name,
          buf !! name
          = if decide (name ∈ files) then Some (read_staged staged "/r" name)
            else None)
      /\ marshal both staged "/r" files
         = (map (fun val => EvOpen (filepath.Join ["/r"; val])) files,
            match Marshal_files buf with
            | (_, Some e) => ("", Some (errors.Wrap e "failed to marshal"))
            | (ret, None) => (ret, None)
            end).
Proof.
  assert (files <> []) as Hne by discriminate.
  assert (forall val, val ∈ files ->
            val <> ""
            /\ exists content,
                staged !! filepath.Join ["/r"; val] = Some (os.File content))
    as Hall.
  { intros val Hin. unfold files in Hin.
    apply elem_of_cons in Hin as [->|Hin];
      [split; [discriminate | eexists; vm_compute; reflexivity] |].
    apply list_elem_of_singleton in Hin as ->.
    split; [discriminate | eexists; vm_compute; reflexivity]. }
  split; [exact Hne |]. split; [exact Hall |].
  exact (marshal_reads_every_staged_name both staged "/r" files Hne Hall).
Defined.

Lemma Run_returns_the_outcome_of_a_failed_engine_witness :
  Run one_down engines staged "/r" files down_first = Some ([], Some refused)
  /\ ((exists val,
          val ∈ Lints (cfg one_down)
          /\ err (outcome one_down engines staged "/r" files val) <> None
          /\ (([], Some refused) : list Format * option error)
             = ([], err (outcome one_down engines staged "/r" files val)))
      \/ ((forall val, val ∈ Lints (cfg one_down) ->
             err (outcome one_down engines staged "/r" files val) = None)
          /\ (([], Some refused) : list Format * option error).2 = None)).
Proof.
  assert (Run one_down engines staged "/r" files down_first
          = Some ([], Some refused)) as Hrun by (vm_compute; reflexivity).
  split; [exact Hrun |].
  exact (Run_returns_the_outcome_of_a_failed_engine
           one_down engines staged "/r" files down_first _ Hrun).
Defined.

Lemma Run_touches_only_what_engines_select_witness :
  exec txt_first (spawn both engines staged "/r" files) = Some txt_first_state
  /\ (forall name, EvOpen name ∈ effects txt_first_state ->
        exists val v,
          val ∈ Lints (cfg both) /\ v ∈ files
          /\ selecting_extension v
             ∈ config.Extension (config.Include_ (config.Filter_ val))
          /\ name = filepath.Join ["/r"; v])
  /\ length (rpc_calls (effects txt_first_state)) <= length (Lints (cfg both)).
Proof.
  assert (exec txt_first (spawn both engines staged "/r" files)
          = Some txt_first_state) as Hexec by (vm_compute; reflexivity).
  split; [exact Hexec |].
  destruct (Run_touches_only_what_engines_select
              both engines staged "/r" files txt_first txt_first_state Hexec)
    as (Hopen & _ & _ & Hcalls).
  split; [exact Hopen | exact Hcalls].
Defined.

Lemma Fetch_removes_no_path_and_keeps_kinds_witness :
  exists fs' x,
    Fetch adapter world "c0ffee" staged = (fs', x)
    /\ forall path,
        (os.is_dir staged path = true -> os.is_dir fs' path = true)
        /\ (os.is_file staged path = true -> os.is_file fs' path = true).
Proof.
  destruct (Fetch adapter world "c0ffee" staged) as [fs' x] eqn:Hf.
  exists fs', x. split; [reflexivity |].
  exact (Fetch_removes_no_path_and_keeps_kinds
           adapter world "c0ffee" staged fs' x Hf).
Defined.

(** A file that is in the way of the staging keeps its path and its kind,
    not its content. *)
Example Fetch_rewrites_a_staged_file :
  Fetch adapter world "c0ffee"
        (<[ "/w/gerrit-2020-01-02/1/abc/a.go.base64" := os.File "old" ]>
           fetched)
  = (fetched, Ok (staging_root, ["patch.base64"; "a.go"]))
  /\ fetched !! "/w/gerrit-2020-01-02/1/abc/a.go.base64"
     = Some (os.File "cGFja2FnZSBh").
Proof. split; by vm_compute. Qed.

Lemma staged_file_is_read_back_from_its_directory_witness :
  exists fs',
    "a.go.base64" <> ""
    /\ Fetch_helper "/w/stage" "a.go.base64" "cGFja2FnZSBh" ∅ = (fs', Ok tt)
    /\ marshal both fs' "/w/stage" ["a.go.base64"]
       = ([EvOpen (filepath.Join ["/w/stage"; "a.go.base64"])],
          match Marshal_files {[ "a.go.base64" := "cGFja2FnZSBh" ]} with
          | (_, Some e) => ("", Some (errors.Wrap e "failed to marshal"))
          | (ret, None) => (ret, None)
          end).
Proof.
  destruct (Fetch_helper "/w/stage" "a.go.base64" "cGFja2FnZSBh" ∅)
    as [fs' x] eqn:Hh.
  assert (x = Ok tt) as ->.
  { assert ((Fetch_helper "/w/stage" "a.go.base64" "cGFja2FnZSBh" ∅).2
            = Ok tt) as Hx by (vm_compute; reflexivity).
    rewrite Hh in Hx. exact Hx. }
  assert ("a.go.base64" <> "") as Hne by discriminate.
  exists fs'. split; [exact Hne |]. split; [reflexivity |].
  exact (staged_file_is_read_back_from_its_directory
           both "/w/stage" "a.go.base64" "cGFja2FnZSBh" ∅ fs' Hne Hh).
Defined.

End MoreExamples.

Section FaultExamples.
Import proto review scenario.

Lemma Fetch_faults_after_staging_the_patch_witness :
  @Fetch names json_without_files url adapter world "c0ffee" ∅
  = (patch_staged,
     Fault "interface conversion: not map[string]interface {}").
Proof.
  apply (@Fetch_faults_after_staging_the_patch
           names json_without_files url adapter world "c0ffee" ∅ patch_staged
           "/w" ")]}'[{change}]" "abc" "cGF0Y2g="
           "interface conversion: not map[string]interface {}"
           change_without_files {[ "abc" := VMap current_without_files ]}
           current_without_files 1 2).
  - reflexivity.
  - vm_compute. reflexivity.
  - vm_compute. reflexivity.
  - vm_compute. reflexivity.
  - vm_compute. reflexivity.
  - vm_compute. reflexivity.
  - vm_compute. reflexivity.
  - vm_compute. reflexivity.
  - vm_compute. reflexivity.
  - vm_compute. reflexivity.
  - vm_compute. reflexivity.
Defined.

Lemma adapter_faults_on_reply_without_revisions_witness :
  @Fetch names json_bare url adapter world "c0ffee" staged
  = (staged, Fault "interface conversion: not map[string]interface {}")
  /\ @Vote json_bare adapter world "c0ffee" [golint]
     = ([], Fault "interface conversion: not map[string]interface {}").
Proof.
  apply (@adapter_faults_on_reply_without_revisions
           names json_bare url adapter world "c0ffee"
           ")]}'[{change}]" ")]}'[{change}]"
           "interface conversion: not map[string]interface {}"
           "interface conversion: not map[string]interface {}"
           staged [golint] ∅ ∅).
  - reflexivity.
  - vm_compute. reflexivity.
  - vm_compute. reflexivity.
  - vm_compute. reflexivity.
  - vm_compute. reflexivity.
  - vm_compute. reflexivity.
  - vm_compute. reflexivity.
Defined.
End FaultExamples.
